(** * Guided Component Architect: the validator and the retry loop

    A shallow embedding of [backend/architect.py]: the linter-agent
    ([validate_component] and its five check routines), the generator call
    ([generate_component]) and the orchestrator ([run_pipeline]), and of
    the session store and routes of [backend/server.py], followed by the
    properties of the specification that concern them and by further
    properties read off the code.

    Conventions of the embedding.
    - A Python [str] is a list of Unicode code points ([text]); a code
      point is a number of type [N].  Literals of the source are written
      with [txt].
    - The parts of the Unicode database that Python consults for code
      points at or above 128 (word characters, decimal digits, printable
      characters, lower-casing) are the fields of a record [Unicode]; for
      ASCII the tables are written out and compute.  The white-space table
      is written out in full.
    - The regular expressions of the source are values of a small pattern
      type and are run by a backtracking matcher that tries the
      alternatives in the order of Python's [re] module.
    - The completion service is an oracle; the calls made to it are
      recorded in a log threaded through a state-and-exception monad.
      Console output ([print]) is not modelled. *)

From Stdlib Require Import String Ascii.
From Stdlib Require Import List Bool Arith NArith Lia.
From Stdlib Require Import DecimalString.
Import ListNotations.

Set Implicit Arguments.

(* ------------------------------------------------------------------ *)
(** ** Text *)

Definition char := N.
Definition text := list char.

Definition txt (s : string) : text := map N_of_ascii (list_ascii_of_string s).

(** Code points that have no place in a literal of this file. *)
Definition c_dquote : char := 34%N.
Definition c_squote : char := 39%N.
Definition c_backtick : char := 96%N.
Definition c_backslash : char := 92%N.
Definition c_emdash : char := 8212%N.

Fixpoint text_eqb (a b : text) : bool :=
  match a, b with
  | [], [] => true
  | x :: a', y :: b' => N.eqb x y && text_eqb a' b'
  | _, _ => false
  end.

Definition mem_char (c : char) (cs : text) : bool := existsb (N.eqb c) cs.

Open Scope N_scope.

(** [in_range lo hi c]: lo <= c <= hi. *)
Definition in_range (lo hi c : char) : bool := (N.leb lo c && N.leb c hi)%bool.

Definition is_ascii (c : char) : bool := N.ltb c 128.

(** The Unicode database above ASCII, as Python's [str] methods and the
    [re] module see it. [lower_hi] is a function of the whole string:
    lower-casing is not character-wise outside ASCII (final sigma, dotted
    capital I). *)
Record Unicode := {
  alnum_hi : char -> bool;
  decimal_hi : char -> bool;
  printable_hi : char -> bool;
  lower_hi : text -> text
}.

(** [str.isspace] of one character, which is also the class [\s] and the
    set that [strip()] and [split()] remove. *)
Definition is_space (c : char) : bool :=
  in_range 9 13 c || in_range 28 32 c || N.eqb c 133 || N.eqb c 160
  || N.eqb c 5760 || in_range 8192 8202 c || N.eqb c 8232 || N.eqb c 8233
  || N.eqb c 8239 || N.eqb c 8287 || N.eqb c 12288.

Definition ascii_alnum (c : char) : bool :=
  in_range 48 57 c || in_range 65 90 c || in_range 97 122 c.

Definition ascii_lower (c : char) : char :=
  if in_range 65 90 c then (c + 32) else c.

Definition ascii_upper (c : char) : char :=
  if in_range 97 122 c then (c - 32) else c.

Section Strings.

Variable U : Unicode.

(** The class [\w]: alphanumeric or underscore. *)
Definition is_word (c : char) : bool :=
  if is_ascii c then ascii_alnum c || N.eqb c 95 else alnum_hi U c.

(** The class [\d]. *)
Definition is_decimal (c : char) : bool :=
  if is_ascii c then in_range 48 57 c else decimal_hi U c.

Definition is_printable (c : char) : bool :=
  if is_ascii c then in_range 32 126 c else printable_hi U c.

(** [s.lower()]. *)
Definition lower (s : text) : text :=
  if forallb is_ascii s then map ascii_lower s else lower_hi U s.

End Strings.

(** [s.upper()], used by the source on the two severity names only; it is
    written for ASCII text. *)
Definition upper (s : text) : text := map ascii_upper s.

Close Scope N_scope.

(** [s.startswith(p)]. *)
Fixpoint startswith (p s : text) : bool :=
  match p, s with
  | [], _ => true
  | x :: p', y :: s' => N.eqb x y && startswith p' s'
  | _ :: _, [] => false
  end.

(** [p in s] for strings. *)
Fixpoint contains (p s : text) : bool :=
  startswith p s ||
  match s with
  | [] => false
  | _ :: s' => contains p s'
  end.

(** [s.lstrip(chars)] and [s.rstrip(chars)] for a character predicate. *)
Fixpoint lstrip_by (f : char -> bool) (s : text) : text :=
  match s with
  | c :: s' => if f c then lstrip_by f s' else s
  | [] => []
  end.

Definition rstrip_by (f : char -> bool) (s : text) : text :=
  rev (lstrip_by f (rev s)).

Definition strip_by (f : char -> bool) (s : text) : text :=
  rstrip_by f (lstrip_by f s).

(** [s.strip()]. *)
Definition strip (s : text) : text := strip_by is_space s.

(** [s.split()]: the maximal runs of characters that are not white space. *)
Fixpoint split_ws_aux (s : text) (cur : text) : list text :=
  match s with
  | [] => match cur with [] => [] | _ => [rev cur] end
  | c :: s' =>
      if is_space c
      then match cur with
           | [] => split_ws_aux s' []
           | _ => rev cur :: split_ws_aux s' []
           end
      else split_ws_aux s' (c :: cur)
  end.

Definition split_ws (s : text) : list text := split_ws_aux s [].

(** [sep.join(parts)]. *)
Fixpoint join (sep : text) (parts : list text) : text :=
  match parts with
  | [] => []
  | [p] => p
  | p :: ps => p ++ sep ++ join sep ps
  end.

(** [str(n)] for a natural number. *)
Definition str_of_nat (n : nat) : text :=
  txt (NilZero.string_of_uint (Nat.to_uint n)).

(** *** [repr] of strings and of lists of strings *)

Definition hex_digit (d : N) : char :=
  if N.ltb d 10%N then (48 + d)%N else (87 + d)%N.

(** The [w] lowest hexadecimal digits of [n], most significant first. *)
Fixpoint hex_fixed (w : nat) (n : N) : text :=
  match w with
  | O => []
  | S w' => hex_fixed w' (N.div n 16%N) ++ [hex_digit (N.modulo n 16%N)]
  end.

Section Repr.

Variable U : Unicode.

Definition repr_char (quote : char) (c : char) : text :=
  if N.eqb c c_backslash then [c_backslash; c_backslash]
  else if N.eqb c quote then [c_backslash; quote]
  else if N.eqb c 9%N then c_backslash :: txt "t"
  else if N.eqb c 10%N then c_backslash :: txt "n"
  else if N.eqb c 13%N then c_backslash :: txt "r"
  else if is_printable U c then [c]
  else if N.ltb c 256%N then c_backslash :: txt "x" ++ hex_fixed 2 c
  else if N.ltb c 65536%N then c_backslash :: txt "u" ++ hex_fixed 4 c
  else c_backslash :: txt "U" ++ hex_fixed 8 c.

(** [repr(s)]: single quotes, unless the string holds a single quote and
    no double quote. *)
Definition repr_str (s : text) : text :=
  let quote :=
    if mem_char c_squote s && negb (mem_char c_dquote s)
    then c_dquote else c_squote in
  quote :: flat_map (repr_char quote) s ++ [quote].

(** [repr] of a list of strings, which is what an f-string prints for it. *)
Definition repr_list (l : list text) : text :=
  txt "[" ++ join (txt ", ") (map repr_str l) ++ txt "]".

End Repr.

(** *** Sets of strings and [sorted] *)

(** Lexicographic order on code points, the order of [sorted] on [str]. *)
Fixpoint text_leb (a b : text) : bool :=
  match a, b with
  | [], _ => true
  | _ :: _, [] => false
  | x :: a', y :: b' =>
      if N.ltb x y then true
      else if N.ltb y x then false
      else text_leb a' b'
  end.

Fixpoint insert_sorted (x : text) (l : list text) : list text :=
  match l with
  | [] => [x]
  | y :: l' => if text_leb x y then x :: l else y :: insert_sorted x l'
  end.

Definition sorted (l : list text) : list text :=
  fold_right insert_sorted [] l.

Definition mem_text (x : text) (l : list text) : bool := existsb (text_eqb x) l.

(** [set(values)]: the distinct elements.  A Python set has no order of
    its own; the source only tests membership in it and sorts it. *)
Fixpoint py_set (l : list text) : list text :=
  match l with
  | [] => []
  | x :: l' => if mem_text x l' then py_set l' else x :: py_set l'
  end.

(* ------------------------------------------------------------------ *)
(** ** Regular expressions

    The patterns of the source use literal characters, character classes,
    greedy bounded repetition of one class, the anchors [^], [$] and [\b],
    and at most one capturing group. *)

Inductive citem :=
| CChar (c : char)
| CRange (lo hi : char)
| CSpace
| CWord
| CDigit.

Inductive cclass :=
| OneOf (items : list citem)
| NoneOf (items : list citem).

Inductive atom :=
| Rep (cls : cclass) (lo : nat) (hi : option nat)
| WordBoundary
| AtStart
| AtEnd
| GroupOpen
| GroupClose.

Definition pattern := list atom.

(** A literal string inside a pattern. *)
Definition lit (s : string) : pattern :=
  map (fun c => Rep (OneOf [CChar c]) 1 (Some 1)) (txt s).

Definition plus (cls : cclass) : atom := Rep cls 1 None.
Definition opt (cls : cclass) : atom := Rep cls 0 (Some 1).

(** What a successful match reports: its length and the bounds of the
    group, all counted from the start of the match. *)
Record span := { m_len : nat; g_start : nat; g_end : nat }.

Section Regex.

Variable U : Unicode.

Definition item_mem (c : char) (i : citem) : bool :=
  match i with
  | CChar x => N.eqb c x
  | CRange lo hi => in_range lo hi c
  | CSpace => is_space c
  | CWord => is_word U c
  | CDigit => is_decimal U c
  end.

Definition class_mem (cls : cclass) (c : char) : bool :=
  match cls with
  | OneOf items => existsb (item_mem c) items
  | NoneOf items => negb (existsb (item_mem c) items)
  end.

(** Length of the longest prefix of [s] in the class, at most [hi]. *)
Fixpoint run (cls : cclass) (hi : option nat) (s : text) : nat :=
  match hi, s with
  | Some O, _ => O
  | _, [] => O
  | _, c :: s' =>
      if class_mem cls c
      then S (run cls (option_map Nat.pred hi) s')
      else O
  end.

(** [try_down f lo k]: the first success of [f] at k, k-1, ..., lo. *)
Fixpoint try_down (A : Type) (f : nat -> option A) (lo k : nat) : option A :=
  if Nat.ltb k lo then None
  else match f k with
       | Some r => Some r
       | None => match k with
                 | O => None
                 | S k' => try_down f lo k'
                 end
       end.

(** The character before the position reached after [k] more characters. *)
Definition prev_after (prev : option char) (s : text) (k : nat) : option char :=
  match k with
  | O => prev
  | S k' => nth_error s k'
  end.

Definition word_at (c : option char) : bool :=
  match c with
  | Some x => is_word U x
  | None => false
  end.

(** [match_here p prev s pos gs ge]: match [p] at the start of [s], where
    [prev] is the character before it and [pos] characters of the match
    have been consumed. *)
Fixpoint match_here (p : pattern) (prev : option char) (s : text)
    (pos gs ge : nat) {struct p} : option span :=
  match p with
  | [] => Some {| m_len := pos; g_start := gs; g_end := ge |}
  | Rep cls lo hi :: rest =>
      try_down
        (fun k => match_here rest (prev_after prev s k) (skipn k s)
                    (pos + k) gs ge)
        lo (run cls hi s)
  | WordBoundary :: rest =>
      if xorb (word_at prev) (word_at (hd_error s))
      then match_here rest prev s pos gs ge else None
  | AtStart :: rest =>
      match prev with
      | None => match_here rest prev s pos gs ge
      | Some _ => None
      end
  | AtEnd :: rest =>
      match s with
      | [] => match_here rest prev s pos gs ge
      | [c] => if N.eqb c 10%N then match_here rest prev s pos gs ge else None
      | _ => None
      end
  | GroupOpen :: rest => match_here rest prev s pos pos ge
  | GroupClose :: rest => match_here rest prev s pos gs pos
  end.

Definition match_at (p : pattern) (prev : option char) (s : text) : option span :=
  match_here p prev s 0 0 0.

(** The text of the group of a match found at the start of [s]. *)
Definition group_text (m : span) (s : text) : text :=
  firstn (g_end m - g_start m) (skipn (g_start m) s).

(** [re.match(p, s)] as a truth value. *)
Definition re_match (p : pattern) (s : text) : bool :=
  match match_at p None s with Some _ => true | None => false end.

(** [re.search(p, s)] as a truth value: a match at some position. *)
Fixpoint search_from (p : pattern) (prev : option char) (s : text) : bool :=
  match match_at p prev s with
  | Some _ => true
  | None => match s with
            | [] => false
            | c :: s' => search_from p (Some c) s'
            end
  end.

Definition re_search (p : pattern) (s : text) : bool := search_from p None s.

(** [re.findall(p, s)] for a pattern with one group: the group of each
    match, leftmost first, without overlap.  [skip] counts the characters
    of the last match that are still to be passed.  (No pattern of the
    source matches the empty string.) *)
Fixpoint findall_from (p : pattern) (prev : option char) (s : text)
    (skip : nat) : list text :=
  match s with
  | [] =>
      match skip, match_at p prev s with
      | O, Some m => [group_text m s]
      | _, _ => []
      end
  | c :: s' =>
      match skip with
      | S k => findall_from p (Some c) s' k
      | O =>
          match match_at p prev s with
          | Some m => group_text m s :: findall_from p (Some c) s' (m_len m - 1)
          | None => findall_from p (Some c) s' 0
          end
      end
  end.

Definition re_findall (p : pattern) (s : text) : list text :=
  findall_from p None s 0.

End Regex.

(** *** The patterns of the source *)

(** [export\s+class\s+\w+] *)
Definition re_export_class : pattern :=
  lit "export" ++ [plus (OneOf [CSpace])] ++ lit "class"
  ++ [plus (OneOf [CSpace]); plus (OneOf [CWord])].

Definition hex_class : cclass :=
  OneOf [CRange 48%N 57%N; CRange 97%N 102%N; CRange 65%N 70%N].

(** [#([0-9a-fA-F]{3,8})\b] *)
Definition re_hex_color : pattern :=
  lit "#" ++ [GroupOpen; Rep hex_class 3 (Some 8); GroupClose; WordBoundary].

(** The class of a declaration value: any character except a semicolon,
    a quote of the three kinds and a closing brace. *)
Definition value_class : cclass :=
  NoneOf [CChar 59%N; CChar c_dquote; CChar c_squote; CChar c_backtick;
          CChar 125%N].

Definition colon_or_space : cclass := OneOf [CChar 58%N; CSpace].

(** [border-?[Rr]adius[:\s]+(V+)], where V is the class of declaration
    values above. *)
Definition re_border_radius : pattern :=
  lit "border" ++ [opt (OneOf [CChar 45%N])]
  ++ [Rep (OneOf [CChar 82%N; CChar 114%N]) 1 (Some 1)] ++ lit "adius"
  ++ [plus colon_or_space; GroupOpen; plus value_class; GroupClose].

(** [font-family[:\s]+(V+)] *)
Definition re_font_family : pattern :=
  lit "font-family"
  ++ [plus colon_or_space; GroupOpen; plus value_class; GroupClose].

(** [^\d+px$] *)
Definition re_px_value : pattern :=
  [AtStart; plus (OneOf [CDigit])] ++ lit "px" ++ [AtEnd].

(* ------------------------------------------------------------------ *)
(** ** Design tokens and findings *)

(** The token file as the validator reads it: [colors] and [borders] are
    the items of the two mappings, names and string values (empty when
    the key is absent, as [tokens.get(key, {})] has it), and the two
    typography entries.  The validator reads the mappings through their
    values only. *)
Record DesignTokens := {
  colors : list (text * text);
  borders : list (text * text);
  font_family_sans : text;
  font_family_mono : text
}.

Inductive Rule :=
| ANGULAR_STRUCTURE
| SYNTAX
| DESIGN_TOKEN_COLOR
| DESIGN_TOKEN_RADIUS
| DESIGN_TOKEN_FONT
| OUTPUT_FORMAT.

Inductive Severity := error | warning.

Definition rule_name (r : Rule) : text :=
  match r with
  | ANGULAR_STRUCTURE => txt "ANGULAR_STRUCTURE"
  | SYNTAX => txt "SYNTAX"
  | DESIGN_TOKEN_COLOR => txt "DESIGN_TOKEN_COLOR"
  | DESIGN_TOKEN_RADIUS => txt "DESIGN_TOKEN_RADIUS"
  | DESIGN_TOKEN_FONT => txt "DESIGN_TOKEN_FONT"
  | OUTPUT_FORMAT => txt "OUTPUT_FORMAT"
  end.

Definition severity_name (s : Severity) : text :=
  match s with
  | error => txt "error"
  | warning => txt "warning"
  end.

Definition rule_eqb (a b : Rule) : bool :=
  match a, b with
  | ANGULAR_STRUCTURE, ANGULAR_STRUCTURE
  | SYNTAX, SYNTAX
  | DESIGN_TOKEN_COLOR, DESIGN_TOKEN_COLOR
  | DESIGN_TOKEN_RADIUS, DESIGN_TOKEN_RADIUS
  | DESIGN_TOKEN_FONT, DESIGN_TOKEN_FONT
  | OUTPUT_FORMAT, OUTPUT_FORMAT => true
  | _, _ => false
  end.

(** class ValidationError *)
Record ValidationError := {
  rule : Rule;
  message : text;
  severity : Severity
}.

(** [ValidationError.__str__] *)
Definition str (e : ValidationError) : text :=
  txt "[" ++ upper (severity_name (severity e)) ++ txt "] "
  ++ rule_name (rule e) ++ txt ": " ++ message e.

Definition is_error (e : ValidationError) : bool :=
  match severity e with error => true | warning => false end.

Definition is_warning (e : ValidationError) : bool :=
  match severity e with warning => true | error => false end.

(* ------------------------------------------------------------------ *)
(** ** The validator *)

Definition is_open (c : char) : bool := mem_char c (txt "({[").
Definition is_close (c : char) : bool := mem_char c (txt ")}]").
Definition is_quote (c : char) : bool :=
  mem_char c [c_dquote; c_squote; c_backtick].

(** The dictionary [pairs]: the opening bracket of a closing one; it is
    looked up for closing brackets only. *)
Definition pairs (c : char) : char :=
  if N.eqb c 41%N then 40%N          (* ) ( *)
  else if N.eqb c 125%N then 123%N   (* } { *)
  else 91%N.                         (* ] [ *)

Definition same_char (a : option char) (b : char) : bool :=
  match a with
  | Some x => N.eqb x b
  | None => false
  end.

Section Validator.

Variable U : Unicode.

Definition unmatched_closing (ch : char) (i : nat) : ValidationError :=
  {| rule := SYNTAX;
     message := txt "Unmatched closing bracket '" ++ [ch]
                ++ txt "' at position " ++ str_of_nat i;
     severity := error |}.

Definition unclosed_brackets (stack : text) : ValidationError :=
  {| rule := SYNTAX;
     message := txt "Unclosed brackets: "
                ++ repr_list U (map (fun c => [c]) stack);
     severity := error |}.

(** The [while] loop of [_check_bracket_balance] on the text from
    position [i] on.  [stack] is the Python list: its last element is the
    top.  [string_char] is [None] until a first quote is seen. *)
Fixpoint bracket_loop (code : text) (i : nat) (in_string : bool)
    (string_char : option char) (stack : text) {struct code}
    : list ValidationError :=
  match code with
  | [] =>
      match stack with
      | [] => []
      | _ :: _ => [unclosed_brackets stack]
      end
  | ch :: rest =>
      if in_string then
        match N.eqb ch c_backslash, rest with
        | true, _ :: rest' =>
            bracket_loop rest' (i + 2) in_string string_char stack
        | _, _ =>
            bracket_loop rest (i + 1)
              (if same_char string_char ch then false else in_string)
              string_char stack
        end
      else if is_quote ch then
        bracket_loop rest (i + 1) true (Some ch) stack
      else if is_open ch then
        bracket_loop rest (i + 1) in_string string_char (stack ++ [ch])
      else if is_close ch then
        if match stack with [] => true | _ :: _ => false end
           || negb (same_char (Some (last stack 0%N)) (pairs ch))
        then [unmatched_closing ch i]
        else bracket_loop rest (i + 1) in_string string_char (removelast stack)
      else bracket_loop rest (i + 1) in_string string_char stack
  end.

Definition _check_bracket_balance (code : text) : list ValidationError :=
  bracket_loop code 0 false None [].

(** The set of values of a mapping of the token file. *)
Definition values (m : list (text * text)) : list text := py_set (map snd m).

Definition color_finding (full : text) (allowed_colors : list text)
    : ValidationError :=
  {| rule := DESIGN_TOKEN_COLOR;
     message := txt "Color '" ++ full
                ++ txt "' is NOT in the design system. Allowed: "
                ++ repr_list U (sorted allowed_colors);
     severity := error |}.

(** The literal as compared: three digits are doubled to six. *)
Definition full_color (hex_val : text) : text :=
  if Nat.eqb (length hex_val) 3
  then txt "#" ++ flat_map (fun c => [c; c]) hex_val
  else txt "#" ++ hex_val.

Definition _check_color_compliance (code : text) (tokens : DesignTokens)
    : list ValidationError :=
  let allowed_colors := values (colors tokens) in
  let hex_colors := re_findall U re_hex_color code in
  flat_map
    (fun hex_val =>
       let full := full_color hex_val in
       if negb (mem_text (lower U full) (map (lower U) allowed_colors))
       then [color_finding full allowed_colors]
       else [])
    hex_colors.

Definition radius_finding (val : text) (allowed_radii : list text)
    : ValidationError :=
  {| rule := DESIGN_TOKEN_RADIUS;
     message := txt "border-radius '" ++ val
                ++ txt "' not in design system. Allowed px values: "
                ++ repr_list U
                     (sorted (filter (contains (txt "px")) allowed_radii));
     severity := warning |}.

(** The characters removed by [val.rstrip(...)]: semicolon, comma and the
    two straight quotes. *)
Definition radius_trailing (c : char) : bool :=
  mem_char c [59%N; 44%N; c_dquote; c_squote].

Definition _check_border_radius_compliance (code : text)
    (tokens : DesignTokens) : list ValidationError :=
  let allowed_radii := values (borders tokens) in
  let radius_matches := re_findall U re_border_radius code in
  flat_map
    (fun m =>
       flat_map
         (fun val0 =>
            let val := rstrip_by radius_trailing val0 in
            if re_match U re_px_value val && negb (mem_text val allowed_radii)
            then [radius_finding val allowed_radii]
            else [])
         (split_ws (strip m)))
    radius_matches.

Definition font_finding (match_clean : text) : ValidationError :=
  {| rule := DESIGN_TOKEN_FONT;
     message := txt "Font '" ++ match_clean
                ++ txt "' not in design system. Use 'Inter' or 'JetBrains Mono'";
     severity := warning |}.

Definition straight_quote (c : char) : bool :=
  mem_char c [c_squote; c_dquote].

Definition allowed_fonts (tokens : DesignTokens) : list text :=
  [font_family_sans tokens; font_family_mono tokens;
   txt "Inter"; txt "JetBrains Mono"].

Definition _check_font_compliance (code : text) (tokens : DesignTokens)
    : list ValidationError :=
  let font_matches := re_findall U re_font_family code in
  flat_map
    (fun m =>
       let match_clean := strip_by straight_quote (strip m) in
       if negb (existsb (fun af => contains (lower U af) (lower U m))
                  (allowed_fonts tokens))
       then [font_finding match_clean]
       else [])
    font_matches.

Definition structure_finding (msg : string) : ValidationError :=
  {| rule := ANGULAR_STRUCTURE; message := txt msg; severity := error |}.

Definition fence : text := txt "```".

Definition output_format_finding : ValidationError :=
  {| rule := OUTPUT_FORMAT;
     message := txt "Code wrapped in markdown fences " ++ [c_emdash]
                ++ txt " output raw code only";
     severity := error |}.

Definition when (b : bool) (e : ValidationError) : list ValidationError :=
  if b then [e] else [].

Definition validate_component (code : text) (tokens : DesignTokens)
    : list ValidationError :=
  (* 1. Angular structure *)
  when (negb (contains (txt "@Component") code))
       (structure_finding "Missing @Component decorator")
  ++ when (negb (contains (txt "selector:") code))
       (structure_finding "Missing selector in @Component")
  ++ when (negb (contains (txt "template:") code)
           && negb (contains (txt "templateUrl:") code))
       (structure_finding "Missing template in @Component")
  ++ when (negb (re_search U re_export_class code))
       (structure_finding "Missing exported class")
  (* 2. bracket balance *)
  ++ _check_bracket_balance code
  (* 3. colors *)
  ++ _check_color_compliance code tokens
  (* 4. border radius *)
  ++ _check_border_radius_compliance code tokens
  (* 5. fonts *)
  ++ _check_font_compliance code tokens
  (* 6. output format *)
  ++ when (startswith fence (strip code) || contains fence (firstn 50 code))
       output_format_finding.

Definition hard_errors_of (errors : list ValidationError) : list ValidationError :=
  filter is_error errors.

Definition warnings_of (errors : list ValidationError) : list ValidationError :=
  filter is_warning errors.

End Validator.

(* ------------------------------------------------------------------ *)
(** ** The completion service and the monad of the pipeline *)

Definition MAX_RETRIES : nat := 2.
Definition MODEL : text := txt "llama-3.3-70b-versatile".

(** One turn of a chat: a dictionary with the keys role and content. *)
Record Message := { role : text; content : text }.

(** The arguments of [client.chat.completions.create]; the temperature
    0.3 is kept as a number of tenths. *)
Record Request := {
  req_model : text;
  req_messages : list Message;
  req_temperature_tenths : nat;
  req_max_tokens : N
}.

(** A call that was made, with the content of the reply, or [None] when
    the call raised. *)
Record Call := { call_request : Request; call_reply : option text }.

Definition Log := list Call.

(** The client: the reply may depend on everything that was asked before,
    so that the same request need not get the same answer twice. *)
Definition Groq := Log -> Request -> option text.

Inductive Outcome (A : Type) :=
| Returned (a : A)
| Raised.

Arguments Raised {A}.

(** Computations that log their calls and may raise. *)
Definition M (A : Type) := Log -> Outcome A * Log.

Definition ret (A : Type) (a : A) : M A := fun log => (Returned a, log).

Definition bind (A B : Type) (m : M A) (f : A -> M B) : M B :=
  fun log =>
    match m log with
    | (Returned a, log') => f a log'
    | (Raised, log') => (Raised, log')
    end.

Notation "x <- m ;; k" := (bind m (fun x => k))
  (at level 61, m at next level, right associativity).

(** [client.chat.completions.create(...)], reduced to the content of the
    first choice. *)
Definition create (client : Groq) (req : Request) : M text :=
  fun log =>
    let reply := client log req in
    (match reply with Some t => Returned t | None => Raised end,
     log ++ [{| call_request := req; call_reply := reply |}]).

Definition user (c : text) : Message := {| role := txt "user"; content := c |}.
Definition assistant (c : text) : Message :=
  {| role := txt "assistant"; content := c |}.
Definition system (c : text) : Message :=
  {| role := txt "system"; content := c |}.

Definition nl : text := [10%N].

Definition build_system_prompt (token_str : text) : text :=
  txt "You are an expert Angular/TypeScript developer and UI designer.
Your job is to generate COMPLETE, VALID Angular components using Tailwind CSS inline styles.

=== DESIGN SYSTEM (STRICT - YOU MUST USE THESE TOKENS) ===
" ++ token_str ++ txt "

=== RULES ===
1. Output ONLY raw code " ++ [c_emdash] ++ txt " no markdown fences, no explanations, no comments outside code.
2. Generate a SINGLE self-contained Angular component as a TypeScript file.
3. Use ONLY colors from the design system (primary: #6366f1, secondary: #06b6d4, etc.).
4. Use ONLY border-radius values from the design system (4px, 8px, 12px, 16px, 24px, 9999px).
5. Font must be 'Inter' or 'JetBrains Mono' only.
6. All brackets/braces/parentheses must be properly closed.
7. Component selector must be kebab-case (e.g., app-login-card).
8. Include @Component decorator with selector, template, and styles.
9. Use inline template strings (no separate HTML file reference).
10. The component must be visually polished and match the user's description exactly.

=== OUTPUT FORMAT ===
Start directly with: import { Component } from '@angular/core';
End with the exported class. Nothing else.
".

(** The messages of a generation call: the request alone, or the
    three-turn exchange when there is feedback. *)
Definition generation_messages (user_prompt feedback : text) : list Message :=
  match feedback with
  | [] => [user user_prompt]
  | _ :: _ =>
      [user user_prompt;
       assistant (txt "// previous attempt had errors");
       user (txt "Fix these validation errors and regenerate the COMPLETE component:"
             ++ nl ++ nl ++ feedback)]
  end.

Definition generation_request (system_prompt user_prompt feedback : text)
    : Request :=
  {| req_model := MODEL;
     req_messages :=
       system system_prompt :: generation_messages user_prompt feedback;
     req_temperature_tenths := 3;
     req_max_tokens := 4096%N |}.

Definition generate_component (client : Groq)
    (system_prompt user_prompt feedback : text) : M text :=
  response <- create client
      (generation_request system_prompt user_prompt feedback) ;;
  ret (strip response).

(** The dictionary returned by [run_pipeline]. *)
Record PipelineResult := {
  r_code : text;
  r_errors : list text;
  r_warnings : list text;
  r_hard_errors : list text;
  r_attempts : nat;
  r_success : bool;
  r_prompt : text
}.

(** The variables of the loop of [run_pipeline]. *)
Record LoopVars := {
  v_code : text;
  v_all_errors : list ValidationError;
  v_attempt : nat;
  v_feedback : text
}.

(** The feedback built from the error findings of a failed attempt. *)
Definition feedback_of (hard_errors : list ValidationError) : text :=
  (txt "VALIDATION ERRORS FROM LINTER:" ++ nl ++ join nl (map str hard_errors))
  ++ nl ++ nl
  ++ txt "Fix ALL errors above. Output ONLY the corrected raw TypeScript code.".

(** The prompt sent to the generator: the request, preceded by the last
    four turns of the conversation when there is one. *)
Definition full_prompt_of (user_prompt : text)
    (conversation_history : option (list Message)) : text :=
  match conversation_history with
  | None | Some [] => user_prompt
  | Some history =>
      let history_str :=
        join nl
          (map (fun h => txt "[Previous turn - " ++ role h ++ txt "]: "
                         ++ firstn 200 (content h) ++ txt "...")
               (skipn (List.length history - 4) history)) in
      txt "Previous conversation context:" ++ nl ++ history_str
      ++ nl ++ nl ++ txt "New request: " ++ user_prompt
  end.

Section Pipeline.

Variable U : Unicode.

(** [json.dumps(tokens, indent=2)] of the loaded token file. *)
Variable json_dumps : DesignTokens -> text.

(** [client] stands for [Groq(api_key=api_key)] and [tokens] for the
    result of [load_design_tokens()].  The runs described are those in
    which both were obtained and the token file has the typed shape of
    [DesignTokens]; a run that stops before its loop, because the client
    cannot be built or the file cannot be read, makes no call and is not
    described, nor is one stopped by a token file without its two font
    entries. *)
Variable client : Groq.
Variable tokens : DesignTokens.

(** The [for] loop over [range(max_retries + 1)]: [remaining] iterations
    are left and the next one has index [attempt]. *)
Fixpoint attempt_loop (max_retries : nat) (system_prompt full_prompt : text)
    (remaining attempt : nat) (vars : LoopVars) : M LoopVars :=
  match remaining with
  | O => ret vars
  | S remaining' =>
      code <- generate_component client system_prompt full_prompt
                (v_feedback vars) ;;
      let errors := validate_component U code tokens in
      let hard_errors := filter is_error errors in
      match hard_errors with
      | [] =>
          (* break *)
          ret {| v_code := code; v_all_errors := errors;
                 v_attempt := attempt; v_feedback := v_feedback vars |}
      | _ :: _ =>
          let feedback :=
            if Nat.ltb attempt max_retries
            then feedback_of hard_errors
            else v_feedback vars in
          attempt_loop max_retries system_prompt full_prompt remaining'
            (S attempt)
            {| v_code := code; v_all_errors := errors;
               v_attempt := attempt; v_feedback := feedback |}
      end
  end.

(** The call that an iteration makes, given the feedback and the log so
    far, and the variables it leaves when the reply is [t]. *)
Definition call_of (system_prompt full_prompt feedback : text) (log : Log)
    : Call :=
  let req := generation_request system_prompt full_prompt feedback in
  {| call_request := req; call_reply := client log req |}.

Definition vars_after (max_retries attempt : nat) (feedback t : text)
    : LoopVars :=
  let code := strip t in
  let errors := validate_component U code tokens in
  {| v_code := code; v_all_errors := errors; v_attempt := attempt;
     v_feedback :=
       match hard_errors_of errors with
       | [] => feedback
       | _ :: _ =>
           if Nat.ltb attempt max_retries
           then feedback_of (hard_errors_of errors) else feedback
       end |}.

Definition initial_vars : LoopVars :=
  {| v_code := []; v_all_errors := []; v_attempt := 0; v_feedback := [] |}.

Definition result_of (user_prompt : text) (vars : LoopVars) : PipelineResult :=
  {| r_code := v_code vars;
     r_errors := map str (v_all_errors vars);
     r_warnings := map str (filter is_warning (v_all_errors vars));
     r_hard_errors := map str (filter is_error (v_all_errors vars));
     r_attempts := v_attempt vars + 1;
     r_success := Nat.eqb (List.length (filter is_error (v_all_errors vars))) 0;
     r_prompt := user_prompt |}.

(** [run_pipeline] for a retry budget of [max_retries]. *)
Definition run_pipeline_with (max_retries : nat) (user_prompt : text)
    (conversation_history : option (list Message)) : M PipelineResult :=
  let system_prompt := build_system_prompt (json_dumps tokens) in
  let full_prompt := full_prompt_of user_prompt conversation_history in
  vars <- attempt_loop max_retries system_prompt full_prompt
            (max_retries + 1) 0 initial_vars ;;
  ret (result_of user_prompt vars).

Definition run_pipeline (user_prompt : text)
    (conversation_history : option (list Message)) : M PipelineResult :=
  run_pipeline_with MAX_RETRIES user_prompt conversation_history.

End Pipeline.

(* ------------------------------------------------------------------ *)
(** ** Notions of the specification *)

(** The characters of a text that lie outside string literals, each with
    its position, following the quote state machine of the specification:
    a quote of one of the three kinds opens a literal, the same quote
    closes it, and inside a literal a backslash that is not the last
    character hides the character after it.  [quote] is the quote of the
    literal the text starts in, if any; the quotes themselves belong to
    the literal. *)
Fixpoint outside_from (code : text) (i : nat) (quote : option char)
    {struct code} : list (nat * char) :=
  match code with
  | [] => []
  | ch :: rest =>
      match quote with
      | Some q =>
          match N.eqb ch c_backslash, rest with
          | true, _ :: rest' => outside_from rest' (i + 2) quote
          | _, _ => outside_from rest (i + 1) (if N.eqb q ch then None else quote)
          end
      | None =>
          if is_quote ch then outside_from rest (i + 1) (Some ch)
          else (i, ch) :: outside_from rest (i + 1) None
      end
  end.

Definition outside_indexed (code : text) : list (nat * char) :=
  outside_from code 0 None.

Definition outside_literals (code : text) : text :=
  map snd (outside_indexed code).

(** The closing bracket of an opening one. *)
Definition closer (o : char) : char :=
  if N.eqb o 40%N then 41%N
  else if N.eqb o 123%N then 125%N
  else 93%N.

Definition is_bracket (c : char) : bool := is_open c || is_close c.

(** Texts whose brackets of the three kinds are properly nested. *)
Inductive Balanced : text -> Prop :=
| Balanced_nil : Balanced []
| Balanced_plain c w :
    is_bracket c = false -> Balanced w -> Balanced (c :: w)
| Balanced_wrap o w1 w2 :
    is_open o = true -> Balanced w1 -> Balanced w2 ->
    Balanced (o :: w1 ++ closer o :: w2).

(** [LeftOpen w opened]: [w] is properly nested except for the opening
    brackets [opened] (outermost first), which nothing closes. *)
Inductive LeftOpen : text -> text -> Prop :=
| LeftOpen_none w : Balanced w -> LeftOpen w []
| LeftOpen_more w opened o w' :
    LeftOpen w opened -> is_open o = true -> Balanced w' ->
    LeftOpen (w ++ o :: w') (opened ++ [o]).

(** The bracket stack run on characters that come with their positions. *)
Fixpoint stack_check (U : Unicode) (w : list (nat * char)) (stack : text)
    : list ValidationError :=
  match w with
  | [] =>
      match stack with
      | [] => []
      | _ :: _ => [unclosed_brackets U stack]
      end
  | (i, ch) :: w' =>
      if is_open ch then stack_check U w' (stack ++ [ch])
      else if is_close ch then
        if match stack with [] => true | _ :: _ => false end
           || negb (same_char (Some (last stack 0%N)) (pairs ch))
        then [unmatched_closing ch i]
        else stack_check U w' (removelast stack)
      else stack_check U w' stack
  end.

(** The findings of a rule among a list of findings. *)
Definition of_rule (r : Rule) (l : list ValidationError) : list ValidationError :=
  filter (fun e => rule_eqb (rule e) r) l.

(** A text without the character that starts a colour literal. *)
Definition hash_free (s : text) : bool := negb (mem_char 35%N s).

(** The replies that a log records. *)
Definition reply_has_errors (U : Unicode) (tokens : DesignTokens) (c : Call)
    : Prop :=
  exists t, call_reply c = Some t /\
            hard_errors_of (validate_component U (strip t) tokens) <> [].

(** The hexadecimal digits, the class of the colour pattern. *)
Definition hex_digit_char (c : char) : bool :=
  in_range 48%N 57%N c || in_range 97%N 102%N c || in_range 65%N 70%N c.

(** The character before the position reached after the characters of
    [pre]. *)
Definition prev_of (prev : option char) (pre : text) : option char :=
  fold_left (fun _ c => Some c) pre prev.

(** A reading of the token invariant for the font check: a text passes
    only when each declared font contains one of the two font names of
    the token set. *)
Definition fonts_traced_to_tokens (U : Unicode) (code : text)
    (tokens : DesignTokens) : Prop :=
  _check_font_compliance U code tokens = [] ->
  forall m, In m (re_findall U re_font_family code) ->
    exists af,
      (af = font_family_sans tokens \/ af = font_family_mono tokens) /\
      contains (lower U af) (lower U m) = true.

(* ------------------------------------------------------------------ *)
(** ** Instances used in examples *)

(** Tables that know no character above ASCII; the examples below are
    ASCII texts, for which the tables are not consulted. *)
Definition ascii_tables : Unicode :=
  {| alnum_hi := fun _ => false;
     decimal_hi := fun _ => false;
     printable_hi := fun _ => false;
     lower_hi := fun s => s |}.

(** A token set whose only colour is the primary one. *)
Definition primary_only (b : list (text * text)) (sans mono : text)
    : DesignTokens :=
  {| colors := [(txt "primary", txt "#6366f1")];
     borders := b;
     font_family_sans := sans;
     font_family_mono := mono |}.

(** A token set that names neither Inter nor JetBrains Mono. *)
Definition sample_tokens : DesignTokens :=
  primary_only [(txt "radius-sm", txt "4px")] (txt "Roboto") (txt "Fira Code").

(** A rendering of the token file; the validator never reads it. *)
Definition sample_json (t : DesignTokens) : text := txt "{}".

(** A service that always answers with the same text. *)
Definition constant_client (reply : text) : Groq := fun _ _ => Some reply.

(** A component without error findings. *)
Definition good_component : text :=
  txt "import { Component } from '@angular/core';
@Component({ selector: 'app-x', template: `<p>x</p>` })
export class XComponent {}".

(** A run of the default budget in which the service always answers with
    the empty text. *)
Definition failing_run : Outcome PipelineResult * Log :=
  run_pipeline_with ascii_tables sample_json (constant_client [])
    sample_tokens MAX_RETRIES (txt "a card") None [].

(** Two allowed colours, as in the end-to-end scenario of the
    specification. *)
Definition two_colors : DesignTokens :=
  {| colors := [(txt "primary", txt "#6366f1"); (txt "secondary", txt "#06b6d4")];
     borders := [(txt "radius-sm", txt "4px"); (txt "radius-full", txt "9999px")];
     font_family_sans := txt "Inter";
     font_family_mono := txt "JetBrains Mono" |}.

Definition blue_button (color : string) : text :=
  txt "@Component({ selector: 'app-b', template: `<button style='color: "
  ++ txt color ++ txt "'>b</button>` })
export class BComponent {}".

(** A service whose first answer uses a colour outside the token set and
    whose later answers use an allowed one. *)
Definition second_try_client : Groq :=
  fun log _ =>
    match log with
    | [] => Some (blue_button "#0000ff")
    | _ :: _ => Some (blue_button "#06B6D4")
    end.

(** [Closes stack w]: [w] is properly nested once the brackets of
    [stack], opened before it (outermost first), are taken into account:
    it closes them all, innermost first. *)
Inductive Closes : text -> text -> Prop :=
| Closes_nil w : Balanced w -> Closes [] w
| Closes_snoc stack o w1 w2 :
    Balanced w1 -> Closes stack w2 ->
    Closes (stack ++ [o]) (w1 ++ closer o :: w2).


(* ------------------------------------------------------------------ *)
(** ** The server

    [backend/server.py]: the session store and the routes that change
    it.  The store is a Python dictionary from session identifiers to
    lists of turns; it is kept as the list of its items, in insertion
    order, with one item per key. *)

Definition dict (V : Type) := list (text * V).

(** [d.get(k)] *)
Fixpoint dict_get (V : Type) (d : dict V) (k : text) : option V :=
  match d with
  | [] => None
  | (k', v) :: d' => if text_eqb k' k then Some v else dict_get d' k
  end.

(** [d[k] = v] *)
Fixpoint dict_set (V : Type) (d : dict V) (k : text) (v : V) : dict V :=
  match d with
  | [] => [(k, v)]
  | (k', v') :: d' =>
      if text_eqb k' k then (k', v) :: d' else (k', v') :: dict_set d' k v
  end.

(** [d.pop(k, None)], without its result. *)
Definition dict_pop (V : Type) (d : dict V) (k : text) : dict V :=
  filter (fun kv => negb (text_eqb (fst kv) k)) d.

Definition Sessions := dict (list Message).

(** class GenerateRequest; [session_id] is "default" when the request
    does not name one. *)
Record GenerateRequest := { prompt : text; session_id : text }.

Definition default_session : text := txt "default".

(** class GenerateResponse *)
Record GenerateResponse := {
  g_code : text;
  g_errors : list text;
  g_warnings : list text;
  g_hard_errors : list text;
  g_attempts : nat;
  g_success : bool;
  g_session_id : text
}.

(** What a route does: it answers, raises an [HTTPException], or lets an
    exception of the pipeline through. *)
Inductive Answer (A : Type) :=
| Answered (a : A)
| HTTPException (status : nat) (detail : text)
| Unhandled.

Arguments HTTPException {A}.
Arguments Unhandled {A}.

(** [l[-n:]] for a positive [n]. *)
Definition last_n (A : Type) (n : nat) (l : list A) : list A :=
  skipn (List.length l - n) l.

(** [sessions.get(sid, [])]: the history that a request reads. *)
Definition history_of (sessions : Sessions) (sid : text) : list Message :=
  match dict_get sessions sid with
  | Some h => h
  | None => []
  end.

Section Server.

Variable U : Unicode.
Variable json_dumps : DesignTokens -> text.

(** [connect key] stands for [Groq(api_key=key)] and [tokens] for the
    token file, as in the pipeline. *)
Variable connect : text -> Groq.
Variable tokens : DesignTokens.

(** The turns that a request adds to its session. *)
Definition new_turns (req : GenerateRequest) (result : PipelineResult)
    : list Message :=
  [user (prompt req); assistant (firstn 500 (r_code result))].

Definition response_of (req : GenerateRequest) (result : PipelineResult)
    : GenerateResponse :=
  {| g_code := r_code result;
     g_errors := r_errors result;
     g_warnings := r_warnings result;
     g_hard_errors := r_hard_errors result;
     g_attempts := r_attempts result;
     g_success := r_success result;
     g_session_id := session_id req |}.

(** The route [POST /generate].  [api_key] is the value of the
    environment variable, empty when it is not set. *)
Definition generate (api_key : text) (sessions : Sessions)
    (req : GenerateRequest) (log : Log)
    : Answer GenerateResponse * Sessions * Log :=
  match api_key with
  | [] =>
      (HTTPException 500 (txt "GROQ_API_KEY not configured on server"),
       sessions, log)
  | _ :: _ =>
      let history := history_of sessions (session_id req) in
      match run_pipeline U json_dumps (connect api_key) tokens (prompt req)
              (Some history) log with
      | (Returned result, log') =>
          let history' := history ++ new_turns req result in
          (Answered (response_of req result),
           dict_set sessions (session_id req) (last_n 20 history'),
           log')
      | (Raised, log') => (Unhandled, sessions, log')
      end
  end.

(** The route [DELETE /session/{session_id}]; its answer repeats the
    identifier. *)
Definition clear_session (sessions : Sessions) (sid : text)
    : text * Sessions :=
  (sid, dict_pop sessions sid).

(** The route [GET /health]: whether the key is set. *)
Definition health (api_key : text) : text * bool :=
  (txt "ok", match api_key with [] => false | _ :: _ => true end).

(** A request to the server that changes the store. *)
Inductive Operation :=
| Generate (api_key : text) (req : GenerateRequest)
| Clear (sid : text).

Definition serve (op : Operation) (state : Sessions * Log) : Sessions * Log :=
  match op with
  | Generate api_key req =>
      let '(_, sessions', log') := generate api_key (fst state) req (snd state) in
      (sessions', log')
  | Clear sid => (snd (clear_session (fst state) sid), snd state)
  end.

(** The store and the log after a sequence of requests, the store being
    empty when the server starts. *)
Definition serve_all (ops : list Operation) : Sessions * Log :=
  fold_left (fun state op => serve op state) ops ([], []).

End Server.

(** A history as the server builds it: user and assistant turns in
    alternation, a user turn first. *)
Fixpoint alternating (h : list Message) : Prop :=
  match h with
  | [] => True
  | u :: a :: h' =>
      role u = txt "user" /\ role a = txt "assistant" /\
      List.length (content a) <= 500 /\ alternating h'
  | [_] => False
  end.

(** The store of a server: one item per session, and every history has
    between 2 and 20 turns, in alternation. *)
Definition store_ok (sessions : Sessions) : Prop :=
  NoDup (map fst sessions) /\
  forall sid h, dict_get sessions sid = Some h ->
    2 <= List.length h <= 20 /\ alternating h.

(* ------------------------------------------------------------------ *)
(** ** More instances used in examples *)

(** A service that answers the first call with the empty text and fails
    at every later call. *)
Definition failing_client : Groq :=
  fun log _ => match log with [] => Some [] | _ :: _ => None end.

Definition broken_run : Outcome PipelineResult * Log :=
  run_pipeline_with ascii_tables sample_json failing_client sample_tokens
    MAX_RETRIES (txt "a card") None [].

(** A run whose first reply is accepted. *)
Definition passing_run : Outcome PipelineResult * Log :=
  run_pipeline_with ascii_tables sample_json (constant_client good_component)
    sample_tokens MAX_RETRIES (txt "a card") None [].

(** The font warning on Arial. *)
Definition arial_warning : ValidationError := font_finding (txt "Arial").

(** A token set one of whose colour values is the text of that warning. *)
Definition quoting_tokens : DesignTokens :=
  {| colors := [(txt "note", str arial_warning)];
     borders := [];
     font_family_sans := txt "Inter";
     font_family_mono := txt "JetBrains Mono" |}.

(** A reply with error findings and a font warning. *)
Definition arial_reply : text := txt "font-family: Arial; color: #123456;".

Definition quoting_run : Outcome PipelineResult * Log :=
  run_pipeline_with ascii_tables sample_json (constant_client arial_reply)
    quoting_tokens MAX_RETRIES (txt "a card") None [].

Definition warned_run : Outcome PipelineResult * Log :=
  run_pipeline_with ascii_tables sample_json (constant_client arial_reply)
    sample_tokens MAX_RETRIES (txt "a card") None [].

Definition no_call : Call :=
  {| call_request := generation_request [] [] []; call_reply := None |}.

(** A token set whose only colour is written with three digits. *)
Definition short_tokens : DesignTokens :=
  {| colors := [(txt "white", txt "#fff")];
     borders := [];
     font_family_sans := txt "Inter";
     font_family_mono := txt "JetBrains Mono" |}.

Definition sample_connect : text -> Groq :=
  fun _ => constant_client good_component.

Definition sample_request : GenerateRequest :=
  {| prompt := txt "a card"; session_id := default_session |}.

(** The first request to a server that has just started. *)
Definition first_exchange : Answer GenerateResponse * Sessions * Log :=
  generate ascii_tables sample_json sample_connect sample_tokens (txt "key")
    [] sample_request [].

(* ------------------------------------------------------------------ *)
(** * Properties *)

(** ** Facts about texts *)

Lemma text_eqb_eq (a b : text) : text_eqb a b = true <-> a = b.
Proof.
  revert b; induction a as [|x a IH]; intros [|y b]; simpl;
    try (split; [discriminate | discriminate]); try tauto.
  rewrite andb_true_iff, N.eqb_eq, IH.
  split; [intros [-> ->]; reflexivity | intros H; inversion H; auto].
Qed.

Lemma mem_text_In (x : text) (l : list text) : mem_text x l = true <-> In x l.
Proof.
  unfold mem_text. rewrite existsb_exists. split.
  - intros [y [Hy He]]. apply text_eqb_eq in He. subst. exact Hy.
  - intros H. exists x. split; [exact H | apply text_eqb_eq; reflexivity].
Qed.

Lemma py_set_In (x : text) (l : list text) : In x (py_set l) <-> In x l.
Proof.
  induction l as [|y l IH]; simpl; [tauto|].
  destruct (mem_text y l) eqn:E.
  - rewrite IH. split; [auto|]. intros [->|H]; [apply mem_text_In; exact E | exact H].
  - simpl. rewrite IH. tauto.
Qed.

Lemma flat_map_nil_iff (A B : Type) (f : A -> list B) (l : list A) :
  flat_map f l = [] <-> forall x, In x l -> f x = [].
Proof.
  induction l as [|a l IH]; simpl.
  - split; [intros _ x [] | reflexivity].
  - split.
    + intros H. apply app_eq_nil in H. destruct H as [Ha Hl].
      intros x [<-|Hx]; [exact Ha | apply IH; assumption].
    + intros H. rewrite (H a (or_introl eq_refl)). simpl. apply IH.
      intros x Hx. apply H. right. exact Hx.
Qed.

(** ** The retry loop *)

Section PipelineFacts.

Variable U : Unicode.
Variable json_dumps : DesignTokens -> text.
Variable client : Groq.
Variable tokens : DesignTokens.
Variables (max_retries : nat) (system_prompt full_prompt : text).

Let loop := attempt_loop U client tokens max_retries system_prompt full_prompt.

(** One iteration of the loop, unfolded. *)
Lemma attempt_loop_step (remaining attempt : nat) (vars : LoopVars) (log : Log) :
  loop (S remaining) attempt vars log =
  let c := call_of client system_prompt full_prompt (v_feedback vars) log in
  match call_reply c with
  | None => (Raised, log ++ [c])
  | Some t =>
      match hard_errors_of (validate_component U (strip t) tokens) with
      | [] => (Returned (vars_after U tokens max_retries attempt (v_feedback vars) t), log ++ [c])
      | _ :: _ =>
          loop remaining (S attempt) (vars_after U tokens max_retries attempt (v_feedback vars) t)
            (log ++ [c])
      end
  end.
Proof.
  unfold loop, call_of, vars_after, hard_errors_of. simpl.
  unfold generate_component, bind, create, ret. simpl.
  destruct (client log _) as [t|]; simpl; [|reflexivity].
  destruct (filter is_error _); reflexivity.
Qed.

(** The loop only appends to the log, at most one call per iteration. *)
Lemma attempt_loop_log (remaining : nat) :
  forall attempt vars log out log',
    loop remaining attempt vars log = (out, log') ->
    exists calls, log' = log ++ calls /\ List.length calls <= remaining.
Proof.
  induction remaining as [|remaining IH]; intros attempt vars log out log' H.
  - inversion H; subst. exists []. rewrite app_nil_r. split; [reflexivity | simpl; lia].
  - rewrite attempt_loop_step in H. cbv zeta in H.
    destruct (call_reply _) as [t|].
    + destruct (hard_errors_of _).
      * inversion H; subst. eexists [_]. split; [reflexivity | simpl; lia].
      * apply IH in H. destruct H as [calls [-> Hlen]].
        eexists (_ :: calls). rewrite <- app_assoc. split; [reflexivity | simpl; lia].
    + inversion H; subst. eexists [_]. split; [reflexivity | simpl; lia].
Qed.

(** What a loop that returns leaves behind: the variables hold the last
    reply and its findings, and the attempt index counts the calls. *)
Lemma attempt_loop_returned (remaining : nat) :
  forall attempt vars log vars' log',
    loop (S remaining) attempt vars log = (Returned vars', log') ->
    exists calls c t,
      log' = log ++ calls ++ [c] /\
      call_reply c = Some t /\
      v_code vars' = strip t /\
      v_all_errors vars' = validate_component U (strip t) tokens /\
      v_attempt vars' = attempt + List.length calls /\
      (hard_errors_of (v_all_errors vars') <> [] ->
       List.length calls = remaining).
Proof.
  induction remaining as [|remaining IH]; intros attempt vars log vars' log' H;
    rewrite attempt_loop_step in H; cbv zeta in H;
    destruct (call_reply (call_of client system_prompt full_prompt (v_feedback vars) log)) as [t|] eqn:Er;
    try discriminate;
    destruct (hard_errors_of (validate_component U (strip t) tokens)) eqn:Eh.
  - inversion H; subst. exists [], (call_of client system_prompt full_prompt (v_feedback vars) log), t.
    simpl. rewrite Nat.add_0_r.
    repeat split; auto; try (intros Hne; rewrite Eh in Hne; congruence).
  - simpl in H. inversion H; subst.
    exists [], (call_of client system_prompt full_prompt (v_feedback vars) log), t.
    simpl. rewrite Nat.add_0_r. repeat split; auto.
  - inversion H; subst. exists [], (call_of client system_prompt full_prompt (v_feedback vars) log), t.
    simpl. rewrite Nat.add_0_r.
    repeat split; auto; try (intros Hne; rewrite Eh in Hne; congruence).
  - apply IH in H.
    destruct H as [calls [c [t' [-> [Hr [Hc [He [Ha Hl]]]]]]]].
    exists (call_of client system_prompt full_prompt (v_feedback vars) log :: calls), c, t'.
    rewrite <- app_assoc. simpl.
    repeat split; auto; try lia;
      try (intros Hne; rewrite (Hl Hne); reflexivity).
Qed.

(** A loop all of whose calls are answered by a text with error findings
    runs every iteration and returns. *)
Lemma attempt_loop_all_fail (remaining : nat) :
  forall attempt vars log out calls,
    loop remaining attempt vars log = (out, log ++ calls) ->
    Forall (reply_has_errors U tokens) calls ->
    List.length calls = remaining /\ exists vars', out = Returned vars'.
Proof.
  induction remaining as [|remaining IH]; intros attempt vars log out calls H Hall.
  - inversion H as [[Ho Hl]].
    rewrite <- (app_nil_r log) in Hl at 1. apply app_inv_head in Hl.
    subst. split; [reflexivity | eexists; reflexivity].
  - rewrite attempt_loop_step in H. cbv zeta in H.
    set (c := call_of client system_prompt full_prompt (v_feedback vars) log) in *.
    assert (Hhead : forall out' rest, (out', (log ++ [c]) ++ rest) = (out, log ++ calls) ->
                                      calls = c :: rest).
    { intros out' rest E. inversion E as [[Ho Hl]].
      rewrite <- app_assoc in Hl. apply app_inv_head in Hl. auto. }
    destruct (call_reply c) as [t|] eqn:Er.
    + destruct (hard_errors_of (validate_component U (strip t) tokens)) eqn:Eh.
      * specialize (Hhead _ [] ltac:(rewrite app_nil_r; exact H)). subst calls.
        inversion Hall as [|? ? [t' [Ht' Hne]] _]; subst.
        rewrite Er in Ht'. inversion Ht'; subst. congruence.
      * pose proof H as Hlog. apply attempt_loop_log in Hlog.
        destruct Hlog as [rest [Hrest _]].
        rewrite Hrest in H.
        pose proof (Hhead out rest ltac:(congruence)) as ->.
        rewrite <- app_assoc in Hrest. simpl in Hrest.
        inversion Hall; subst.
        destruct (IH _ _ _ _ _ H) as [Hlen Hout]; [assumption|].
        split; [simpl; lia | exact Hout].
    + specialize (Hhead _ [] ltac:(rewrite app_nil_r; exact H)). subst calls.
      inversion Hall as [|? ? [t' [Ht' Hne]] _]; subst.
      rewrite Er in Ht'. discriminate.
Qed.

(** The requests of a loop: the first carries the feedback the loop
    starts with; every later one follows a reply with error findings and
    carries the feedback made of exactly those findings. *)
Lemma attempt_loop_requests (remaining : nat) :
  forall attempt vars log out calls,
    loop remaining attempt vars log = (out, log ++ calls) ->
    attempt + remaining <= max_retries + 1 ->
    (forall c, nth_error calls 0 = Some c ->
       call_request c =
       generation_request system_prompt full_prompt (v_feedback vars)) /\
    (forall k c c',
       nth_error calls k = Some c -> nth_error calls (S k) = Some c' ->
       exists t,
         call_reply c = Some t /\
         hard_errors_of (validate_component U (strip t) tokens) <> [] /\
         call_request c' =
         generation_request system_prompt full_prompt
           (feedback_of (hard_errors_of (validate_component U (strip t) tokens)))).
Proof.
  induction remaining as [|remaining IH]; intros attempt vars log out calls H Hb.
  - inversion H as [[Ho Hl]].
    rewrite <- (app_nil_r log) in Hl at 1. apply app_inv_head in Hl. subst.
    split; [intros c Hc; discriminate | intros [|k] c c' Hc; discriminate].
  - rewrite attempt_loop_step in H. cbv zeta in H.
    set (c0 := call_of client system_prompt full_prompt (v_feedback vars) log) in *.
    assert (Hhead : forall out' rest, (out', (log ++ [c0]) ++ rest) = (out, log ++ calls) ->
                                      calls = c0 :: rest).
    { intros out' rest E. inversion E as [[Ho Hl]].
      rewrite <- app_assoc in Hl. apply app_inv_head in Hl. auto. }
    assert (Hsingle : forall out', (out', log ++ [c0]) = (out, log ++ calls) ->
              (forall c, nth_error calls 0 = Some c ->
                 call_request c =
                 generation_request system_prompt full_prompt (v_feedback vars)) /\
              (forall k c c',
                 nth_error calls k = Some c -> nth_error calls (S k) = Some c' ->
                 exists t,
                   call_reply c = Some t /\
                   hard_errors_of (validate_component U (strip t) tokens) <> [] /\
                   call_request c' =
                   generation_request system_prompt full_prompt
                     (feedback_of (hard_errors_of (validate_component U (strip t) tokens))))).
    { intros out' E.
      rewrite (Hhead out' [] ltac:(rewrite app_nil_r; exact E)).
      split.
      - intros c Hc. inversion Hc; subst. reflexivity.
      - intros [|k] c c' Hc Hc'; simpl in Hc'; try discriminate;
          destruct k; discriminate. }
    destruct (call_reply c0) as [t|] eqn:Er; [|exact (Hsingle _ H)].
    destruct (hard_errors_of (validate_component U (strip t) tokens)) eqn:Eh;
      [exact (Hsingle _ H)|].
    pose proof H as Hlog. apply attempt_loop_log in Hlog.
        destruct Hlog as [rest [Hrest _]].
    rewrite Hrest in H.
    pose proof (Hhead out rest ltac:(congruence)) as ->.
    destruct (IH _ _ _ _ _ H ltac:(lia)) as [Hfirst Hnext].
    split.
    + intros c Hc. inversion Hc; subst. reflexivity.
    + intros [|k] c c' Hc Hc'; simpl in Hc, Hc'.
      * inversion Hc; subst c. exists t. rewrite Eh.
        split; [exact Er | split; [discriminate|]].
        rewrite (Hfirst _ Hc'). unfold vars_after. simpl. rewrite Eh.
        destruct remaining as [|remaining'].
        -- inversion H as [[Ho Hl]].
           rewrite <- (app_nil_r (log ++ [c0])) in Hl at 1.
           apply app_inv_head in Hl. subst rest. discriminate.
        -- assert (Hlt : Nat.ltb attempt max_retries = true) by (apply Nat.ltb_lt; lia).
           rewrite Hlt. reflexivity.
      * exact (Hnext k c c' Hc Hc').
Qed.

(** [run_pipeline_with] is the loop followed by the making of the result. *)
Lemma run_pipeline_with_loop (user_prompt : text)
    (history : option (list Message)) (log : Log) :
  system_prompt = build_system_prompt (json_dumps tokens) ->
  full_prompt = full_prompt_of user_prompt history ->
  run_pipeline_with U json_dumps client tokens max_retries user_prompt history log =
  match loop (max_retries + 1) 0 initial_vars log with
  | (Returned vars, log') => (Returned (result_of user_prompt vars), log')
  | (Raised, log') => (Raised, log')
  end.
Proof.
  intros -> ->. unfold run_pipeline_with, bind, ret, loop.
  destruct (attempt_loop _ _ _ _ _ _ _ _ _ _) as [[vars|] log']; reflexivity.
Qed.

End PipelineFacts.

(** The string form of a finding shows its severity in its second
    character. *)
Lemma str_second_char (e : ValidationError) :
  nth_error (str e) 1 = Some (if is_error e then 69%N else 87%N).
Proof. destruct e as [r m [|]]; reflexivity. Qed.

Lemma warning_str_not_among_errors (w : ValidationError)
    (l : list ValidationError) :
  is_warning w = true -> ~ In (str w) (map str (hard_errors_of l)).
Proof.
  intros Hw Hin. apply in_map_iff in Hin. destruct Hin as [e [He Hin]].
  apply filter_In in Hin. destruct Hin as [_ Herr].
  pose proof (str_second_char e) as H1. pose proof (str_second_char w) as H2.
  rewrite He, H2, Herr in H1.
  destruct w as [r m [|]]; simpl in *; discriminate.
Qed.

Lemma success_flag (vars : LoopVars) :
  Nat.eqb (List.length (filter is_error (v_all_errors vars))) 0 = true <->
  hard_errors_of (v_all_errors vars) = [].
Proof.
  unfold hard_errors_of. destruct (filter is_error (v_all_errors vars)); simpl.
  - tauto.
  - split; discriminate.
Qed.

(** The findings for the empty text, whatever the tokens. *)
Lemma validate_empty (U : Unicode) (tokens : DesignTokens) :
  validate_component U [] tokens =
  [structure_finding "Missing @Component decorator";
   structure_finding "Missing selector in @Component";
   structure_finding "Missing template in @Component";
   structure_finding "Missing exported class"].
Proof. reflexivity. Qed.

(** C1. If every attempt of a run, up to and including the last one the
    budget allows, is answered by a text with at least one error finding,
    the run makes exactly budget + 1 generator calls and returns (it does
    not raise) a result with [success = false] that carries the text and
    the diagnostics of the last attempt. *)
Theorem exhausted_budget_returns_best_effort
    (U : Unicode) (json_dumps : DesignTokens -> text) (client : Groq)
    (tokens : DesignTokens) (budget : nat) (user_prompt : text)
    (history : option (list Message))
    (out : Outcome PipelineResult) (log : Log) :
  run_pipeline_with U json_dumps client tokens budget user_prompt history []
    = (out, log) ->
  Forall (reply_has_errors U tokens) log ->
  List.length log = budget + 1 /\
  exists r earlier c t,
    out = Returned r /\
    log = earlier ++ [c] /\ call_reply c = Some t /\
    r_success r = false /\
    r_attempts r = budget + 1 /\
    r_code r = strip t /\
    r_errors r = map str (validate_component U (strip t) tokens) /\
    r_hard_errors r =
      map str (hard_errors_of (validate_component U (strip t) tokens)) /\
    r_warnings r =
      map str (warnings_of (validate_component U (strip t) tokens)).
Proof.
  intros Hrun Hall.
  rewrite (run_pipeline_with_loop U json_dumps client tokens budget
             user_prompt history [] eq_refl eq_refl) in Hrun.
  destruct (attempt_loop _ _ _ _ _ _ _ _ _ _) as [o log'] eqn:Hloop.
  assert (log' = log) by (destruct o; inversion Hrun; reflexivity). subst log'.
  destruct (@attempt_loop_all_fail _ _ _ _ _ _ _ _ _ [] _ log Hloop Hall)
    as [Hlen [vars' ->]].
  split; [exact Hlen|].
  rewrite Nat.add_1_r in Hloop.
  destruct (@attempt_loop_returned _ _ _ _ _ _ _ _ _ _ _ _ Hloop)
    as [calls [c [t [Hlog [Hr [Hc [He [Ha Hl]]]]]]]].
  simpl in Hlog. inversion Hrun; subst out.
  exists (result_of user_prompt vars'), calls, c, t.
  assert (Hne : hard_errors_of (v_all_errors vars') <> []).
  { rewrite He. rewrite Hlog in Hall. apply Forall_app in Hall.
    destruct Hall as [_ Hc']. inversion Hc' as [|? ? [t' [Ht' Hne]] _]; subst.
    rewrite Hr in Ht'. inversion Ht'; subst. exact Hne. }
  pose proof (success_flag vars') as Hflag.
  unfold result_of;
    cbn [r_code r_success r_errors r_warnings r_hard_errors r_attempts r_prompt].
  rewrite (Hl Hne) in Ha. rewrite Hc, Ha.
  destruct (Nat.eqb _ 0) eqn:E.
  - exfalso. apply Hne. apply Hflag. reflexivity.
  - rewrite He. unfold warnings_of, hard_errors_of.
    repeat split; auto; lia.
Qed.

(** C2. If the text answered to the first call has no error finding, the
    run makes exactly one generator call, whatever the retry budget. *)
Theorem first_success_makes_one_call
    (U : Unicode) (json_dumps : DesignTokens -> text) (client : Groq)
    (tokens : DesignTokens) (budget : nat) (user_prompt : text)
    (history : option (list Message)) (t : text) :
  client [] (generation_request (build_system_prompt (json_dumps tokens))
               (full_prompt_of user_prompt history) []) = Some t ->
  hard_errors_of (validate_component U (strip t) tokens) = [] ->
  exists r c,
    run_pipeline_with U json_dumps client tokens budget user_prompt history []
      = (Returned r, [c]) /\
    call_request c =
      generation_request (build_system_prompt (json_dumps tokens))
        (full_prompt_of user_prompt history) [] /\
    call_reply c = Some t /\
    r_success r = true /\ r_attempts r = 1 /\ r_code r = strip t.
Proof.
  intros Hreply Hok.
  rewrite (run_pipeline_with_loop U json_dumps client tokens budget
             user_prompt history [] eq_refl eq_refl).
  rewrite Nat.add_1_r, attempt_loop_step.
  unfold call_of. cbn [call_reply call_request v_feedback initial_vars app].
  rewrite Hreply, Hok.
  eexists. eexists. split; [reflexivity|].
  cbn [call_request call_reply].
  unfold result_of, vars_after.
  cbn [r_code r_success r_errors r_warnings r_hard_errors r_attempts r_prompt
       v_code v_all_errors v_attempt].
  unfold hard_errors_of in Hok. rewrite Hok.
  repeat split; reflexivity.
Qed.

(** C3. The result of a run that returns: its success flag is true
    exactly when the findings of the last attempt hold no error, and it
    carries the text of the last attempt, all its findings, the warnings
    and the errors among them, the number of attempts made and the
    original prompt. *)
Theorem result_reports_final_attempt
    (U : Unicode) (json_dumps : DesignTokens -> text) (client : Groq)
    (tokens : DesignTokens) (budget : nat) (user_prompt : text)
    (history : option (list Message)) (r : PipelineResult) (log : Log) :
  run_pipeline_with U json_dumps client tokens budget user_prompt history []
    = (Returned r, log) ->
  exists earlier c t,
    log = earlier ++ [c] /\ call_reply c = Some t /\
    r_code r = strip t /\
    (r_success r = true <->
     hard_errors_of (validate_component U (strip t) tokens) = []) /\
    r_errors r = map str (validate_component U (strip t) tokens) /\
    r_warnings r =
      map str (warnings_of (validate_component U (strip t) tokens)) /\
    r_hard_errors r =
      map str (hard_errors_of (validate_component U (strip t) tokens)) /\
    r_attempts r = List.length log /\
    r_prompt r = user_prompt.
Proof.
  intros Hrun.
  rewrite (run_pipeline_with_loop U json_dumps client tokens budget
             user_prompt history [] eq_refl eq_refl) in Hrun.
  destruct (attempt_loop _ _ _ _ _ _ _ _ _ _) as [[vars'|] log'] eqn:Hloop;
    [|discriminate].
  inversion Hrun; subst r log'. clear Hrun.
  rewrite Nat.add_1_r in Hloop.
  destruct (@attempt_loop_returned _ _ _ _ _ _ _ _ _ _ _ _ Hloop)
    as [calls [c [t [Hlog [Hr [Hc [He [Ha _]]]]]]]].
  simpl in Hlog. exists calls, c, t.
  unfold result_of; cbn [r_code r_success r_errors r_warnings r_hard_errors
                         r_attempts r_prompt].
  rewrite success_flag, He, Hc, Ha, Hlog, length_app. simpl.
  repeat split; auto; lia.
Qed.

(** C4, as stated, fails: the text of a warning can reach the feedback
    inside an error message.  The colour error lists the allowed values;
    with a token value equal to the string form of the font warning of
    the attempt, that string form occurs in the feedback and in the last
    message of the next request. *)
Lemma warning_text_reaches_feedback :
  let findings :=
    validate_component ascii_tables (strip arial_reply) quoting_tokens in
  In arial_warning findings /\
  is_warning arial_warning = true /\
  In arial_warning (warnings_of findings) /\
  hard_errors_of findings <> [] /\
  contains (str arial_warning) (feedback_of (hard_errors_of findings)) = true /\
  exists c' m,
    nth_error (snd quoting_run) 1 = Some c' /\
    In m (req_messages (call_request c')) /\
    contains (str arial_warning) (content m) = true.
Proof.
  cbv zeta. split; [vm_compute; tauto|]. split; [reflexivity|].
  split; [vm_compute; tauto|]. split; [vm_compute; discriminate|].
  split; [vm_compute; reflexivity|].
  destruct (nth_error (snd quoting_run) 1) as [c'|] eqn:E;
    [|vm_compute in E; discriminate].
  exists c', (last (req_messages (call_request c')) (user [])).
  split; [reflexivity|].
  vm_compute in E. inversion E. split; [|vm_compute; reflexivity].
  vm_compute. tauto.
Qed.

(** The feedback is never the empty text, so a retry always takes the
    branch of [generate_component] that adds the two turns. *)
Lemma feedback_of_cons (errs : list ValidationError) :
  exists c s, feedback_of errs = c :: s.
Proof. unfold feedback_of. simpl. eauto. Qed.

(** C4. Feedback lists the error findings and nothing else.  In any run,
    an attempt without error findings is the last one, whatever its
    warnings.  When an attempt is followed by another, the next request
    holds the system prompt, the prompt, the fixed assistant turn and a
    last turn made of the two header lines, the string forms of the
    error findings of the attempt, one per item and in order, and the
    fix directive.  Every item is an error finding of the attempt; a
    warning of the attempt is neither among the findings listed nor is
    its string form one of the items. *)
Theorem feedback_lists_the_errors
    (U : Unicode) (json_dumps : DesignTokens -> text) (client : Groq)
    (tokens : DesignTokens) (budget : nat) (user_prompt : text)
    (history : option (list Message))
    (out : Outcome PipelineResult) (log : Log)
    (k : nat) (c : Call) (t : text) :
  run_pipeline_with U json_dumps client tokens budget user_prompt history []
    = (out, log) ->
  nth_error log k = Some c ->
  call_reply c = Some t ->
  let findings := validate_component U (strip t) tokens in
  let errs := filter is_error findings in
  (errs = [] -> nth_error log (S k) = None) /\
  (forall c', nth_error log (S k) = Some c' ->
     errs <> [] /\
     req_messages (call_request c') =
       [system (build_system_prompt (json_dumps tokens));
        user (full_prompt_of user_prompt history);
        assistant (txt "// previous attempt had errors");
        user (txt "Fix these validation errors and regenerate the COMPLETE component:"
              ++ nl ++ nl
              ++ txt "VALIDATION ERRORS FROM LINTER:" ++ nl
              ++ join nl (map str errs)
              ++ nl ++ nl
              ++ txt "Fix ALL errors above. Output ONLY the corrected raw TypeScript code.")]) /\
  (forall e, In e errs -> In e findings /\ severity e = error) /\
  (forall w, In w findings -> severity w = warning ->
             ~ In w errs /\ ~ In (str w) (map str errs)).
Proof.
  intros Hrun Hc Hr findings errs.
  rewrite (run_pipeline_with_loop U json_dumps client tokens budget
             user_prompt history [] eq_refl eq_refl) in Hrun.
  destruct (attempt_loop _ _ _ _ _ _ _ _ _ _) as [o log'] eqn:Hloop.
  assert (log' = log) by (destruct o; inversion Hrun; reflexivity). subst log'.
  destruct (@attempt_loop_requests _ _ _ _ _ _ _ _ _ [] _ log Hloop
              ltac:(lia)) as [_ Hnext].
  assert (Hstep : forall c', nth_error log (S k) = Some c' ->
            errs <> [] /\
            call_request c' =
              generation_request (build_system_prompt (json_dumps tokens))
                (full_prompt_of user_prompt history) (feedback_of errs)).
  { intros c' Hc'. destruct (Hnext k c c' Hc Hc') as [t' [Ht' [Hne Hreq]]].
    rewrite Hr in Ht'. inversion Ht'; subst t'. split; assumption. }
  split; [|split; [|split]].
  - intros Hnil. destruct (nth_error log (S k)) as [c'|] eqn:E; [|reflexivity].
    destruct (Hstep c' eq_refl) as [Hne _]. contradiction.
  - intros c' Hc'. destruct (Hstep c' Hc') as [Hne Hreq].
    split; [exact Hne|]. rewrite Hreq.
    unfold generation_request. cbn [req_messages].
    destruct (feedback_of_cons errs) as [c0 [s Hf]].
    rewrite Hf. cbn [generation_messages]. rewrite <- Hf.
    unfold feedback_of. rewrite <- !app_assoc. reflexivity.
  - intros e He. apply filter_In in He. destruct He as [Hin He].
    split; [exact Hin|].
    unfold is_error in He. destruct (severity e); [reflexivity|discriminate].
  - intros w _ Hw.
    assert (Hw' : is_warning w = true) by (unfold is_warning; rewrite Hw; reflexivity).
    split.
    + intros Hin. apply filter_In in Hin. destruct Hin as [_ He].
      unfold is_error in He. rewrite Hw in He. discriminate.
    + apply (warning_str_not_among_errors w findings Hw').
Qed.

(** ** The bracket check *)

Section BracketFacts.

Variable U : Unicode.

(** The loop of [_check_bracket_balance] is the bracket stack run on the
    characters outside literals. *)
Lemma bracket_loop_refines (n : nat) :
  forall code, List.length code <= n ->
  forall i stack,
    (forall sc, bracket_loop U code i false sc stack =
                stack_check U (outside_from code i None) stack) /\
    (forall q, bracket_loop U code i true (Some q) stack =
               stack_check U (outside_from code i (Some q)) stack).
Proof.
  induction n as [|n IH]; intros code Hlen i stack.
  - destruct code; [|simpl in Hlen; lia]. split; intros; reflexivity.
  - destruct code as [|ch rest]; [split; intros; reflexivity|].
    simpl in Hlen. assert (Hrest : List.length rest <= n) by lia.
    split.
    + intros sc. simpl. destruct (is_quote ch).
      * apply (IH rest Hrest).
      * simpl. destruct (is_open ch); [apply (IH rest Hrest)|].
        destruct (is_close ch); [|apply (IH rest Hrest)].
        destruct (_ || _); [reflexivity | apply (IH rest Hrest)].
    + intros q. simpl.
      destruct (N.eqb ch c_backslash) eqn:Eb.
      * destruct rest as [|nxt rest'].
        -- destruct (N.eqb q ch); reflexivity.
        -- apply IH. simpl in Hrest. lia.
      * destruct (N.eqb q ch); apply (IH rest Hrest).
  Qed.

Lemma check_bracket_balance_refines (code : text) :
  _check_bracket_balance U code = stack_check U (outside_indexed code) [].
Proof.
  unfold _check_bracket_balance, outside_indexed.
  apply (proj1 (@bracket_loop_refines (List.length code) code (le_n _) 0 [])).
Qed.

(** The positions reported by [outside_from] are positions of the text. *)
Lemma outside_from_position (n : nat) :
  forall code, List.length code <= n ->
  forall i0 q i c,
    In (i, c) (outside_from code i0 q) ->
    i0 <= i /\ nth_error code (i - i0) = Some c.
Proof.
  induction n as [|n IH]; intros code Hlen i0 q i c Hin.
  - destruct code; [destruct Hin | simpl in Hlen; lia].
  - destruct code as [|ch rest]; [destruct Hin|].
    simpl in Hlen. assert (Hrest : List.length rest <= n) by lia.
    assert (Hnext : forall q', In (i, c) (outside_from rest (i0 + 1) q') ->
                               i0 <= i /\ nth_error (ch :: rest) (i - i0) = Some c).
    { intros q' H. apply (IH rest Hrest) in H. destruct H as [Hle Hn].
      split; [lia|]. replace (i - i0) with (S (i - (i0 + 1))) by lia. exact Hn. }
    simpl in Hin. destruct q as [q|].
    + destruct (N.eqb ch c_backslash).
      * destruct rest as [|nxt rest']; [eapply Hnext; exact Hin|].
        apply IH in Hin; [|simpl in Hrest; lia]. destruct Hin as [Hle Hn].
        split; [lia|]. replace (i - i0) with (S (S (i - (i0 + 2)))) by lia.
        exact Hn.
      * eapply Hnext; exact Hin.
    + destruct (is_quote ch); [eapply Hnext; exact Hin|].
      destruct Hin as [Hin|Hin]; [|eapply Hnext; exact Hin].
      inversion Hin; subst. split; [lia|]. rewrite Nat.sub_diag. reflexivity.
Qed.

Lemma is_open_cases (o : char) :
  is_open o = true -> o = 40%N \/ o = 123%N \/ o = 91%N.
Proof.
  unfold is_open, mem_char. simpl. rewrite !orb_true_iff, !N.eqb_eq.
  intros [H|[H|[H|H]]]; auto; discriminate.
Qed.

Lemma closer_facts (o : char) :
  is_open o = true ->
  is_open (closer o) = false /\ is_close (closer o) = true /\
  pairs (closer o) = o.
Proof.
  intros H. destruct (is_open_cases o H) as [-> | [-> | ->]]; repeat split.
Qed.

(** Properly nested characters leave the stack as they found it. *)
Lemma stack_check_balanced (bw : text) :
  Balanced bw ->
  forall w rest stack,
    map snd w = bw ->
    stack_check U (w ++ rest) stack = stack_check U rest stack.
Proof.
  induction 1 as [|c bw Hc Hb IH|o b1 b2 Ho Hb1 IH1 Hb2 IH2];
    intros w rest stack Hw.
  - apply map_eq_nil in Hw. subst. reflexivity.
  - destruct w as [|[i c'] w]; [discriminate|]. simpl in Hw.
    inversion Hw; subst. simpl.
    unfold is_bracket in Hc. apply orb_false_iff in Hc. destruct Hc as [-> ->].
    apply IH. reflexivity.
  - destruct w as [|[i o'] w]; [discriminate|]. simpl in Hw.
    inversion Hw as [[Ho' Hw']]. subst o'.
    apply map_eq_app in Hw'. destruct Hw' as [wa [wb' [-> [Ha Hb']]]].
    destruct wb' as [|[j c'] wb]; [discriminate|]. simpl in Hb'.
    inversion Hb' as [[Hc' Hwb]]. subst c'.
    destruct (closer_facts o Ho) as [Hno [Hcl Hp]].
    simpl. rewrite Ho. rewrite <- app_assoc. rewrite (IH1 wa _ _ Ha).
    simpl. rewrite Hno, Hcl, Hp. rewrite last_last, removelast_last.
    simpl. rewrite N.eqb_refl.
    destruct (stack ++ [o]) eqn:E; [destruct stack; discriminate|].
    simpl. apply IH2. exact Hwb.
Qed.

(** Characters that leave brackets open push exactly those. *)
Lemma stack_check_left_open (bw opened : text) :
  LeftOpen bw opened ->
  forall w rest stack,
    map snd w = bw ->
    stack_check U (w ++ rest) stack = stack_check U rest (stack ++ opened).
Proof.
  induction 1 as [bw Hb|bw opened o b' Hl IH Ho Hb'];
    intros w rest stack Hw.
  - rewrite app_nil_r. apply (stack_check_balanced Hb). exact Hw.
  - apply map_eq_app in Hw. destruct Hw as [wa [wb' [-> [Ha Hb'']]]].
    destruct wb' as [|[j c'] wb]; [discriminate|]. simpl in Hb''.
    inversion Hb'' as [[Hc' Hwb]]. subst c'.
    rewrite <- app_assoc. rewrite (IH wa _ _ Ha).
    simpl. rewrite Ho. rewrite (stack_check_balanced Hb' _ _ _ Hwb).
    rewrite app_assoc. reflexivity.
Qed.

End BracketFacts.

(** C7. The bracket check, with the characters inside string literals
    left out: a properly nested text has no finding; a closing bracket
    that does not match the innermost open bracket (or meets none) gives
    exactly one error finding, at its position, whatever comes after it;
    brackets left open at the end give exactly one finding that lists
    them, which for a single open brace lists that brace. *)
Theorem bracket_balance_check (U : Unicode) (code : text) :
  (Balanced (outside_literals code) -> _check_bracket_balance U code = []) /\
  (forall before i c after opened,
     outside_indexed code = before ++ (i, c) :: after ->
     LeftOpen (map snd before) opened ->
     is_close c = true ->
     opened = [] \/ last opened 0%N <> pairs c ->
     nth_error code i = Some c /\
     _check_bracket_balance U code = [unmatched_closing c i]) /\
  (forall opened,
     LeftOpen (outside_literals code) opened -> opened <> [] ->
     _check_bracket_balance U code = [unclosed_brackets U opened]) /\
  (LeftOpen (outside_literals code) (txt "{") ->
   _check_bracket_balance U code =
   [{| rule := SYNTAX;
       message := txt "Unclosed brackets: ['{']";
       severity := error |}]).
Proof.
  rewrite check_bracket_balance_refines.
  assert (Hopen : forall opened,
            LeftOpen (outside_literals code) opened -> opened <> [] ->
            stack_check U (outside_indexed code) [] = [unclosed_brackets U opened]).
  { intros opened Hl Hne.
    rewrite <- (app_nil_r (outside_indexed code)).
    rewrite (stack_check_left_open U Hl _ _ _ eq_refl). simpl.
    destruct opened; [contradiction | reflexivity]. }
  split; [|split; [|split]].
  - intros Hb. rewrite <- (app_nil_r (outside_indexed code)).
    apply (stack_check_balanced U Hb). reflexivity.
  - intros before i c after opened Hsplit Hleft Hclose Htop. split.
    + assert (Hin : In (i, c) (outside_indexed code))
        by (rewrite Hsplit; apply in_elt).
      apply (@outside_from_position (List.length code) code (le_n _)) in Hin.
      destruct Hin as [_ Hn]. rewrite Nat.sub_0_r in Hn. exact Hn.
    + rewrite Hsplit. rewrite (stack_check_left_open U Hleft _ _ _ eq_refl).
      simpl. rewrite Hclose.
      assert (Hno : is_open c = false).
      { unfold is_close, mem_char in Hclose. simpl in Hclose.
        rewrite !orb_true_iff, !N.eqb_eq in Hclose.
        destruct Hclose as [-> | [-> | [-> | Hclose]]];
          try reflexivity; discriminate. }
      rewrite Hno. destruct Htop as [-> | Hne]; [reflexivity|].
      destruct opened; [reflexivity|]. simpl orb.
      destruct (N.eqb _ _) eqn:E; [|reflexivity].
      apply N.eqb_eq in E. contradiction.
  - exact Hopen.
  - intros Hl. rewrite (Hopen _ Hl); [reflexivity | discriminate].
Qed.

(** ** The findings of each check carry the rule of the check *)

Lemma of_rule_app (r : Rule) (a b : list ValidationError) :
  of_rule r (a ++ b) = of_rule r a ++ of_rule r b.
Proof. apply filter_app. Qed.

Lemma of_rule_other (r r' : Rule) (l : list ValidationError) :
  Forall (fun e => rule e = r') l -> rule_eqb r' r = false -> of_rule r l = [].
Proof.
  intros Hall Hne. induction Hall as [|e l He _ IH]; [reflexivity|].
  simpl. rewrite He, Hne. exact IH.
Qed.

Lemma of_rule_same (r : Rule) (l : list ValidationError) :
  Forall (fun e => rule e = r) l -> of_rule r l = l.
Proof.
  intros Hall. induction Hall as [|e l He _ IH]; [reflexivity|].
  simpl. rewrite He. replace (rule_eqb r r) with true by (destruct r; reflexivity).
  rewrite IH. reflexivity.
Qed.

Lemma when_rule (b : bool) (e : ValidationError) :
  Forall (fun x => rule x = rule e) (when b e).
Proof. destruct b; simpl; auto. Qed.

Lemma flat_map_rule (A : Type) (r : Rule) (f : A -> list ValidationError)
    (l : list A) :
  (forall x, Forall (fun e => rule e = r) (f x)) ->
  Forall (fun e => rule e = r) (flat_map f l).
Proof.
  intros H. induction l as [|a l IH]; simpl; [constructor|].
  apply Forall_app. split; [apply H | exact IH].
Qed.

Section RuleFacts.

Variable U : Unicode.

Lemma stack_check_rule (w : list (nat * char)) :
  forall stack, Forall (fun e => rule e = SYNTAX) (stack_check U w stack).
Proof.
  induction w as [|[i ch] w IH]; intros stack; simpl.
  - destruct stack; auto.
  - destruct (is_open ch); [apply IH|].
    destruct (is_close ch); [|apply IH].
    destruct (_ || _); [auto | apply IH].
Qed.

Lemma bracket_rule (code : text) :
  Forall (fun e => rule e = SYNTAX) (_check_bracket_balance U code).
Proof. rewrite check_bracket_balance_refines. apply stack_check_rule. Qed.

Lemma color_rule (code : text) (tokens : DesignTokens) :
  Forall (fun e => rule e = DESIGN_TOKEN_COLOR)
         (_check_color_compliance U code tokens).
Proof.
  apply flat_map_rule. intros h. cbv beta zeta. destruct (negb _); auto.
Qed.

Lemma radius_rule (code : text) (tokens : DesignTokens) :
  Forall (fun e => rule e = DESIGN_TOKEN_RADIUS)
         (_check_border_radius_compliance U code tokens).
Proof.
  apply flat_map_rule. intros m. apply flat_map_rule. intros v.
  cbv beta zeta. destruct (_ && _); auto.
Qed.

Lemma font_rule (code : text) (tokens : DesignTokens) :
  Forall (fun e => rule e = DESIGN_TOKEN_FONT)
         (_check_font_compliance U code tokens).
Proof.
  apply flat_map_rule. intros m. cbv beta zeta. destruct (negb _); auto.
Qed.

(** The findings of one rule among those of the validator are the
    findings of the check of that rule. *)
Lemma validate_of_rule (r : Rule) (code : text) (tokens : DesignTokens) :
  of_rule r (validate_component U code tokens) =
  match r with
  | ANGULAR_STRUCTURE =>
      when (negb (contains (txt "@Component") code))
           (structure_finding "Missing @Component decorator")
      ++ when (negb (contains (txt "selector:") code))
           (structure_finding "Missing selector in @Component")
      ++ when (negb (contains (txt "template:") code)
               && negb (contains (txt "templateUrl:") code))
           (structure_finding "Missing template in @Component")
      ++ when (negb (re_search U re_export_class code))
           (structure_finding "Missing exported class")
  | SYNTAX => _check_bracket_balance U code
  | DESIGN_TOKEN_COLOR => _check_color_compliance U code tokens
  | DESIGN_TOKEN_RADIUS => _check_border_radius_compliance U code tokens
  | DESIGN_TOKEN_FONT => _check_font_compliance U code tokens
  | OUTPUT_FORMAT =>
      when (startswith fence (strip code) || contains fence (firstn 50 code))
           output_format_finding
  end.
Proof.
  unfold validate_component. rewrite !of_rule_app.
  pose proof (bracket_rule code) as Hb.
  pose proof (color_rule code tokens) as Hc.
  pose proof (radius_rule code tokens) as Hr.
  pose proof (font_rule code tokens) as Hf.
  assert (Hs : forall b msg,
            Forall (fun e => rule e = ANGULAR_STRUCTURE)
                   (when b (structure_finding msg)))
    by (intros b msg; exact (when_rule b (structure_finding msg))).
  assert (Ho : forall b,
            Forall (fun e => rule e = OUTPUT_FORMAT)
                   (when b output_format_finding))
    by (intros b; exact (when_rule b output_format_finding)).
  destruct r;
    repeat match goal with
    | |- context [of_rule ?R (when ?b ?e)] =>
        first [ rewrite (@of_rule_same R (when b e) (when_rule b e))
              | rewrite (@of_rule_other R _ (when b e) (when_rule b e) eq_refl) ]
    | H : Forall _ ?l |- context [of_rule ?R ?l] =>
        first [ rewrite (@of_rule_same R l H)
              | rewrite (@of_rule_other R _ l H eq_refl) ]
    end;
    rewrite ?app_nil_r; cbn [app]; rewrite <- ?app_assoc; reflexivity.
Qed.

End RuleFacts.

(** ** Token compliance *)

Section ComplianceFacts.

Variable U : Unicode.

Lemma mem_lower_values (x : text) (m : list (text * text)) :
  mem_text x (map (lower U) (values m)) = true <->
  exists name val, In (name, val) m /\ lower U val = x.
Proof.
  rewrite mem_text_In, in_map_iff. unfold values. split.
  - intros [v [Hv Hin]]. apply py_set_In, in_map_iff in Hin.
    destruct Hin as [[name val] [E Hin]]. simpl in E.
    exists name, val. split; [exact Hin | rewrite E; exact Hv].
  - intros [name [val [Hin E]]]. exists val. split; [exact E|].
    apply py_set_In, in_map_iff. exists (name, val). auto.
Qed.

Lemma mem_values (x : text) (m : list (text * text)) :
  mem_text x (values m) = true <-> exists name, In (name, x) m.
Proof.
  rewrite mem_text_In. unfold values. rewrite py_set_In, in_map_iff. split.
  - intros [[name val] [E Hin]]. simpl in E. subst val. exists name. exact Hin.
  - intros [name Hin]. exists (name, x). auto.
Qed.

Lemma color_check_passes (code : text) (tokens : DesignTokens) :
  _check_color_compliance U code tokens = [] <->
  forall h, In h (re_findall U re_hex_color code) ->
    exists name val,
      In (name, val) (colors tokens) /\
      lower U val = lower U (full_color h).
Proof.
  unfold _check_color_compliance. rewrite flat_map_nil_iff.
  split; intros H h Hin; specialize (H h Hin); cbv beta zeta in *.
  - destruct (mem_text _ _) eqn:E; [|discriminate].
    apply mem_lower_values. exact E.
  - apply mem_lower_values in H. rewrite H. reflexivity.
Qed.

Lemma radius_check_passes (code : text) (tokens : DesignTokens) :
  _check_border_radius_compliance U code tokens = [] <->
  forall m, In m (re_findall U re_border_radius code) ->
  forall v, In v (split_ws (strip m)) ->
    re_match U re_px_value (rstrip_by radius_trailing v) = true ->
    exists name, In (name, rstrip_by radius_trailing v) (borders tokens).
Proof.
  unfold _check_border_radius_compliance. rewrite flat_map_nil_iff.
  split.
  - intros H m Hm v Hv Hpx. specialize (H m Hm).
    rewrite flat_map_nil_iff in H. specialize (H v Hv). cbv beta zeta in H.
    rewrite Hpx in H. simpl in H.
    destruct (mem_text _ _) eqn:E; [|discriminate].
    apply mem_values. exact E.
  - intros H m Hm. rewrite flat_map_nil_iff. intros v Hv. cbv beta zeta.
    destruct (re_match _ _ _) eqn:Hpx; [|reflexivity].
    apply (H m Hm v Hv) in Hpx. apply mem_values in Hpx.
    rewrite Hpx. reflexivity.
Qed.

Lemma font_check_passes (code : text) (tokens : DesignTokens) :
  _check_font_compliance U code tokens = [] <->
  forall m, In m (re_findall U re_font_family code) ->
    exists af, In af (allowed_fonts tokens) /\
               contains (lower U af) (lower U m) = true.
Proof.
  unfold _check_font_compliance. rewrite flat_map_nil_iff.
  split; intros H m Hm; specialize (H m Hm); cbv beta zeta in *.
  - destruct (existsb _ _) eqn:E; [|discriminate].
    apply existsb_exists in E. exact E.
  - apply existsb_exists in H. rewrite H. reflexivity.
Qed.

End ComplianceFacts.

(** C5, as stated, fails for the font check: a declaration of Inter
    passes under a token set whose fonts are Roboto and Fira Code. *)
Lemma inter_passes_without_token :
  ~ fonts_traced_to_tokens ascii_tables (txt "font-family: Inter;")
      sample_tokens.
Proof.
  intros H.
  destruct (H eq_refl (txt "Inter") (or_introl eq_refl)) as [af [[-> | ->] Hc]];
    vm_compute in Hc; discriminate.
Qed.

(** C5, amended. The colour check and the radius check compare the text
    only with values of the token set: a text passes the colour check
    exactly when each colour literal equals, case aside, a colour of the
    token set, and the radius check exactly when each pixel value of a
    border-radius declaration is a radius of the token set.  The font
    check compares with the two font names of the token set and with the
    two built-in names Inter and JetBrains Mono. *)
Theorem checks_compare_with_tokens (U : Unicode) (code : text)
    (tokens : DesignTokens) :
  (_check_color_compliance U code tokens = [] <->
   forall h, In h (re_findall U re_hex_color code) ->
     exists name val,
       In (name, val) (colors tokens) /\
       lower U val = lower U (full_color h)) /\
  (_check_border_radius_compliance U code tokens = [] <->
   forall m, In m (re_findall U re_border_radius code) ->
   forall v, In v (split_ws (strip m)) ->
     re_match U re_px_value (rstrip_by radius_trailing v) = true ->
     exists name, In (name, rstrip_by radius_trailing v) (borders tokens)) /\
  (_check_font_compliance U code tokens = [] <->
   forall m, In m (re_findall U re_font_family code) ->
     exists af,
       (af = font_family_sans tokens \/ af = font_family_mono tokens \/
        af = txt "Inter" \/ af = txt "JetBrains Mono") /\
       contains (lower U af) (lower U m) = true).
Proof.
  split; [apply color_check_passes|].
  split; [apply radius_check_passes|].
  rewrite font_check_passes.
  split; intros H m Hm; destruct (H m Hm) as [af [Haf Hc]]; exists af;
    (split; [|exact Hc]).
  - destruct Haf as [<- | [<- | [<- | [<- | []]]]]; auto.
  - destruct Haf as [-> | [-> | [-> | ->]]]; simpl; auto.
Qed.

(** Whatever the token set, a text has no font finding when each text
    that the font pattern captures in it contains Inter or JetBrains Mono,
    case aside.  The capture ends at the first quote, so it is the
    declared value only when the value is written without quotes. *)
Theorem builtin_fonts_always_pass (U : Unicode) (code : text)
    (tokens : DesignTokens) :
  (forall m, In m (re_findall U re_font_family code) ->
     contains (lower U (txt "Inter")) (lower U m) = true \/
     contains (lower U (txt "JetBrains Mono")) (lower U m) = true) ->
  _check_font_compliance U code tokens = [] /\
  of_rule DESIGN_TOKEN_FONT (validate_component U code tokens) = [].
Proof.
  intros H.
  assert (Hf : _check_font_compliance U code tokens = []).
  { apply font_check_passes. intros m Hm.
    destruct (H m Hm) as [Hc | Hc];
      [exists (txt "Inter") | exists (txt "JetBrains Mono")];
      (split; [simpl; auto | exact Hc]). }
  split; [exact Hf|]. rewrite validate_of_rule. exact Hf.
Qed.

(** C9. A declaration that names Inter between quotes gets a font
    finding.  The declared value contains Inter, but the pattern stops at
    the opening quote: the capture is a single blank, no allowed name is
    found in it, and the warning names an empty font.  The token set
    here even configures Inter and JetBrains Mono. *)
Theorem quoted_inter_is_flagged :
  let code := txt "font-family: 'Inter', sans-serif;" in
  contains (lower ascii_tables (txt "Inter"))
    (lower ascii_tables (txt "'Inter', sans-serif")) = true /\
  re_findall ascii_tables re_font_family code = [txt " "] /\
  _check_font_compliance ascii_tables code two_colors = [font_finding []] /\
  of_rule DESIGN_TOKEN_FONT (validate_component ascii_tables code two_colors)
    = [font_finding []] /\
  str (font_finding []) =
    txt "[WARNING] DESIGN_TOKEN_FONT: Font '' not in design system. Use 'Inter' or 'JetBrains Mono'".
Proof. vm_compute. repeat split. Qed.

(** ** The output format and the empty text *)

(** C8, as stated, fails: a text of fifty blanks followed by a fence does
    not start with a fence and has none among its first fifty characters,
    and yet it gets the finding. *)
Lemma fence_after_fifty_blanks_is_flagged :
  startswith fence (repeat 32%N 50 ++ fence) = false /\
  contains fence (firstn 50 (repeat 32%N 50 ++ fence)) = false /\
  of_rule OUTPUT_FORMAT
    (validate_component ascii_tables (repeat 32%N 50 ++ fence) sample_tokens)
  = [output_format_finding].
Proof. vm_compute. repeat split. Qed.

(** C8, amended. The validator gives the output-format finding, once and
    with error severity, exactly when the text starts with a fence after
    white space is stripped from it, or has a fence among its first fifty
    characters. *)
Theorem output_format_check (U : Unicode) (code : text)
    (tokens : DesignTokens) :
  of_rule OUTPUT_FORMAT (validate_component U code tokens) =
  (if startswith fence (strip code) || contains fence (firstn 50 code)
   then [output_format_finding] else []) /\
  severity output_format_finding = error.
Proof. rewrite validate_of_rule. split; reflexivity. Qed.

(** C10. The empty text gets the four structure findings, all errors, and
    nothing else; hence a run whose final text is empty does not succeed. *)
Theorem empty_text_is_rejected (U : Unicode) (tokens : DesignTokens) :
  validate_component U [] tokens =
    [ {| rule := ANGULAR_STRUCTURE;
         message := txt "Missing @Component decorator"; severity := error |};
      {| rule := ANGULAR_STRUCTURE;
         message := txt "Missing selector in @Component"; severity := error |};
      {| rule := ANGULAR_STRUCTURE;
         message := txt "Missing template in @Component"; severity := error |};
      {| rule := ANGULAR_STRUCTURE;
         message := txt "Missing exported class"; severity := error |} ] /\
  (forall json_dumps client budget user_prompt history r log,
     run_pipeline_with U json_dumps client tokens budget user_prompt history []
       = (Returned r, log) ->
     r_code r = [] -> r_success r = false).
Proof.
  split; [reflexivity|].
  intros json_dumps client budget user_prompt history r log Hrun Hcode.
  rewrite (run_pipeline_with_loop U json_dumps client tokens budget
             user_prompt history [] eq_refl eq_refl) in Hrun.
  destruct (attempt_loop _ _ _ _ _ _ _ _ _ _) as [[vars'|] log'] eqn:Hloop;
    [|discriminate].
  inversion Hrun; subst r log'. clear Hrun.
  rewrite Nat.add_1_r in Hloop.
  destruct (@attempt_loop_returned _ _ _ _ _ _ _ _ _ _ _ _ Hloop)
    as [calls [c [t [_ [_ [Hc [He _]]]]]]].
  unfold result_of in *. cbn [r_code r_success] in *.
  rewrite He, <- Hc, Hcode. reflexivity.
Qed.

(** ** Colour literals *)

Section HexFacts.

Variable U : Unicode.

Lemma hex_class_mem (c : char) : class_mem U hex_class c = hex_digit_char c.
Proof.
  unfold hex_digit_char. simpl. rewrite orb_false_r, orb_assoc. reflexivity.
Qed.

Lemma hex_digit_is_ascii_word (c : char) :
  hex_digit_char c = true -> is_ascii c = true /\ is_word U c = true.
Proof.
  unfold hex_digit_char, is_word, is_ascii, ascii_alnum, in_range.
  intros H.
  assert (Ha : N.ltb c 128 = true).
  { apply N.ltb_lt. rewrite !orb_true_iff, !andb_true_iff, !N.leb_le in H. lia. }
  rewrite Ha. split; [reflexivity|].
  rewrite !orb_true_iff, !andb_true_iff, !N.leb_le in *. lia.
Qed.

Lemma run_all (cls : cclass) (s : text) :
  forall n, forallb (class_mem U cls) s = true -> List.length s <= n ->
            run U cls (Some n) s = List.length s.
Proof.
  induction s as [|c s IH]; intros n Hall Hlen.
  - destruct n; reflexivity.
  - simpl in Hall, Hlen. apply andb_true_iff in Hall. destruct Hall as [Hc Hs].
    destruct n as [|n]; [lia|]. simpl. rewrite Hc. f_equal.
    apply IH; [exact Hs | lia].
Qed.

Lemma try_down_hit (A : Type) (f : nat -> option A) (lo k : nat) (r : A) :
  lo <= k -> f k = Some r -> try_down f lo k = Some r.
Proof.
  intros Hle Hf.
  assert (Hlt : Nat.ltb k lo = false) by (apply Nat.ltb_ge; exact Hle).
  destruct k; simpl; rewrite Hlt, Hf; reflexivity.
Qed.

(** A colour literal that ends the text is matched whole. *)
Lemma match_hex_literal (prev : option char) (h : text) :
  forallb hex_digit_char h = true ->
  3 <= List.length h <= 8 ->
  match_at U re_hex_color prev (35%N :: h) =
  Some {| m_len := S (List.length h); g_start := 1;
          g_end := S (List.length h) |}.
Proof.
  intros Hhex [Hlo Hhi].
  unfold match_at, re_hex_color.
  change (lit "#") with [Rep (OneOf [CChar 35%N]) 1 (Some 1)].
  cbn [app match_here].
  replace (run U (OneOf [CChar 35%N]) (Some 1) (35%N :: h)) with 1
    by (destruct h; reflexivity).
  apply try_down_hit; [lia|].
  cbn [prev_after nth_error skipn Nat.add match_here].
  assert (Hrun : run U hex_class (Some 8) h = List.length h).
  { apply run_all; [|exact Hhi].
    rewrite forallb_forall in *. intros c Hc.
    rewrite hex_class_mem. apply Hhex. exact Hc. }
  rewrite Hrun. apply try_down_hit; [exact Hlo|].
  cbn [match_here]. rewrite skipn_all. cbn [hd_error word_at].
  destruct (List.length h) as [|k] eqn:El; [lia|].
  cbn [prev_after].
  destruct (nth_error h k) as [c|] eqn:En.
  - assert (Hc : hex_digit_char c = true).
    { rewrite forallb_forall in Hhex. apply Hhex.
      eapply nth_error_In. exact En. }
    cbn [word_at]. rewrite (proj2 (hex_digit_is_ascii_word c Hc)).
    reflexivity.
  - apply nth_error_None in En. lia.
Qed.

Lemma findall_skip (p : pattern) (pre : text) :
  forall s prev,
    findall_from U p prev (pre ++ s) (List.length pre) =
    findall_from U p (prev_of prev pre) s 0.
Proof.
  induction pre as [|c pre IH]; intros s prev; [reflexivity|].
  simpl. apply IH.
Qed.

Lemma match_hex_needs_hash (prev : option char) (s : text) :
  hd_error s <> Some 35%N -> match_at U re_hex_color prev s = None.
Proof.
  intros Hne. destruct s as [|c s]; [reflexivity|].
  unfold match_at, re_hex_color.
  change (lit "#") with [Rep (OneOf [CChar 35%N]) 1 (Some 1)].
  cbn [app match_here].
  assert (Hc : N.eqb c 35 = false).
  { apply N.eqb_neq. intros ->. apply Hne. reflexivity. }
  replace (run U (OneOf [CChar 35%N]) (Some 1) (c :: s)) with 0;
    [reflexivity|].
  cbn [run class_mem existsb item_mem]. rewrite Hc. reflexivity.
Qed.

Lemma findall_hash_free (s : text) :
  hash_free s = true ->
  forall prev, findall_from U re_hex_color prev s 0 = [].
Proof.
  unfold hash_free, mem_char. rewrite negb_true_iff.
  induction s as [|c s IH]; intros Hfree prev.
  - reflexivity.
  - simpl in Hfree. apply orb_false_iff in Hfree. destruct Hfree as [Hc Hs].
    cbn [findall_from]. rewrite match_hex_needs_hash.
    + apply IH. exact Hs.
    + simpl. intros E. inversion E; subst. discriminate.
Qed.

Lemma findall_after_hash_free (pre : text) :
  hash_free pre = true ->
  forall s prev,
    findall_from U re_hex_color prev (pre ++ s) 0 =
    findall_from U re_hex_color (prev_of prev pre) s 0.
Proof.
  unfold hash_free, mem_char. rewrite negb_true_iff.
  induction pre as [|c pre IH]; intros Hfree s prev; [reflexivity|].
  simpl in Hfree. apply orb_false_iff in Hfree. destruct Hfree as [Hc Hs].
  cbn [app findall_from]. rewrite match_hex_needs_hash.
  - apply IH. exact Hs.
  - simpl. intros E. inversion E; subst. discriminate.
Qed.

Lemma hash_free_app (a b : text) :
  hash_free (a ++ b) = hash_free a && hash_free b.
Proof.
  unfold hash_free, mem_char. rewrite existsb_app, negb_orb. reflexivity.
Qed.

(** The literals of a text that is one colour literal. *)
Lemma findall_hex_literal (h : text) :
  forallb hex_digit_char h = true ->
  3 <= List.length h <= 8 ->
  re_findall U re_hex_color (35%N :: h) = [h].
Proof.
  intros Hhex Hlen. unfold re_findall. cbn [findall_from].
  rewrite (match_hex_literal None h Hhex Hlen).
  unfold group_text. cbn [m_len g_start g_end skipn].
  replace (S (List.length h) - 1) with (List.length h) by lia.
  rewrite firstn_all. f_equal.
  rewrite <- (app_nil_r h) at 1. rewrite findall_skip. reflexivity.
Qed.

(** A declaration with one six-digit literal, between texts without a
    hash sign, holds exactly that literal. *)
Lemma findall_color_declaration (pre post h : text) :
  hash_free pre = true -> hash_free post = true ->
  (forall prev rest,
     match_at U re_hex_color prev (35%N :: h ++ 59%N :: rest) =
     Some {| m_len := S (List.length h); g_start := 1;
             g_end := S (List.length h) |}) ->
  re_findall U re_hex_color (pre ++ txt "color: " ++ 35%N :: h ++ 59%N :: post)
  = [h].
Proof.
  intros Hpre Hpost Hm. unfold re_findall.
  rewrite app_assoc. rewrite findall_after_hash_free
    by (rewrite hash_free_app, Hpre; reflexivity).
  cbn [findall_from]. rewrite Hm.
  unfold group_text. cbn [m_len g_start g_end skipn].
  replace (S (List.length h) - 1) with (List.length h) by lia.
  rewrite firstn_app, firstn_all, Nat.sub_diag. cbn [firstn].
  rewrite app_nil_r. f_equal.
  rewrite findall_skip. apply findall_hash_free.
  unfold hash_free in *. simpl. exact Hpost.
Qed.

(** The verdict of the colour check on a text that is one literal. *)
Lemma color_check_literal (h : text) (tokens : DesignTokens) :
  forallb hex_digit_char h = true ->
  3 <= List.length h <= 8 ->
  _check_color_compliance U (35%N :: h) tokens =
  if mem_text (lower U (full_color h))
       (map (lower U) (values (colors tokens)))
  then [] else [color_finding U (full_color h) (values (colors tokens))].
Proof.
  intros Hhex Hlen. unfold _check_color_compliance.
  rewrite (findall_hex_literal h Hhex Hlen). cbn [flat_map].
  rewrite app_nil_r. destruct (mem_text _ _); reflexivity.
Qed.

Lemma lower_ascii (s : text) :
  forallb is_ascii s = true -> lower U s = map ascii_lower s.
Proof. intros H. unfold lower. rewrite H. reflexivity. Qed.

Lemma hex_is_ascii (h : text) :
  forallb hex_digit_char h = true -> forallb is_ascii h = true.
Proof.
  rewrite !forallb_forall. intros H c Hc.
  apply (hex_digit_is_ascii_word c (H c Hc)).
Qed.

(** Literals equal up to case are compared as equal. *)
Lemma lower_full_color (h h' : text) :
  forallb hex_digit_char h = true -> forallb hex_digit_char h' = true ->
  lower U h = lower U h' ->
  lower U (full_color h) = lower U (full_color h').
Proof.
  intros Hh Hh' E.
  pose proof (hex_is_ascii h Hh) as Ha. pose proof (hex_is_ascii h' Hh') as Ha'.
  rewrite (lower_ascii h Ha), (lower_ascii h' Ha') in E.
  assert (El : List.length h = List.length h')
    by (rewrite <- (length_map ascii_lower h), E, length_map; reflexivity).
  assert (Hdup : forall s, forallb is_ascii s = true ->
            forallb is_ascii (flat_map (fun c => [c; c]) s) = true).
  { induction s as [|c s IH]; simpl; [reflexivity|].
    intros H. apply andb_true_iff in H. destruct H as [Hc Hs].
    rewrite Hc, (IH Hs). reflexivity. }
  assert (Hmap : forall s, map ascii_lower (flat_map (fun c => [c; c]) s) =
                           flat_map (fun c => [c; c]) (map ascii_lower s)).
  { induction s as [|c s IH]; simpl; [reflexivity | rewrite IH; reflexivity]. }
  unfold full_color. rewrite <- El.
  destruct (Nat.eqb (List.length h) 3).
  - rewrite !lower_ascii by (simpl; apply Hdup; assumption).
    simpl. rewrite !Hmap, E. reflexivity.
  - rewrite !lower_ascii by (simpl; assumption).
    simpl. rewrite E. reflexivity.
Qed.

End HexFacts.

(** C6. The colour check compares literals case aside and after doubling
    the digits of a three-digit literal: a three-digit literal gets the
    findings of its six-digit form; two literals equal up to case pass or
    fail together; so do #FFF and #ffffff.  Under a token set whose only
    colour is #6366f1, a text whose only colour literal is that of the
    declaration [color: #123456;] gets exactly one finding of the rule
    DESIGN_TOKEN_COLOR, an error, and one whose only literal is that of
    [color: #6366f1;] gets none. *)
Theorem color_check_case_and_short_form (U : Unicode) :
  (forall tokens a b c,
     hex_digit_char a = true -> hex_digit_char b = true ->
     hex_digit_char c = true ->
     _check_color_compliance U (txt "#" ++ [a; b; c]) tokens =
     _check_color_compliance U (txt "#" ++ [a; a; b; b; c; c]) tokens) /\
  (forall tokens h h',
     forallb hex_digit_char h = true -> forallb hex_digit_char h' = true ->
     3 <= List.length h <= 8 -> 3 <= List.length h' <= 8 ->
     lower U h = lower U h' ->
     (_check_color_compliance U (txt "#" ++ h) tokens = [] <->
      _check_color_compliance U (txt "#" ++ h') tokens = [])) /\
  (forall tokens,
     _check_color_compliance U (txt "#FFF") tokens = [] <->
     _check_color_compliance U (txt "#ffffff") tokens = []) /\
  (forall b sans mono pre post,
     hash_free pre = true -> hash_free post = true ->
     of_rule DESIGN_TOKEN_COLOR
       (validate_component U (pre ++ txt "color: #123456;" ++ post)
          (primary_only b sans mono))
     = [ {| rule := DESIGN_TOKEN_COLOR;
            message := txt "Color '#123456' is NOT in the design system. Allowed: ['#6366f1']";
            severity := error |} ] /\
     of_rule DESIGN_TOKEN_COLOR
       (validate_component U (pre ++ txt "color: #6366f1;" ++ post)
          (primary_only b sans mono))
     = []).
Proof.
  split; [|split; [|split]].
  - intros tokens a b c Ha Hb Hc.
    change (txt "#" ++ [a; b; c]) with (35%N :: [a; b; c]).
    change (txt "#" ++ [a; a; b; b; c; c]) with (35%N :: [a; a; b; b; c; c]).
    rewrite !color_check_literal
      by first [ simpl; rewrite Ha, Hb, Hc; reflexivity | simpl; lia ].
    reflexivity.
  - intros tokens h h' Hh Hh' Hl Hl' E.
    change (txt "#" ++ h) with (35%N :: h).
    change (txt "#" ++ h') with (35%N :: h').
    rewrite !color_check_literal by assumption.
    rewrite (lower_full_color U h h' Hh Hh' E).
    destruct (mem_text _ _); split; intros H; try reflexivity; discriminate.
  - intros tokens.
    change (txt "#FFF") with (35%N :: txt "FFF").
    change (txt "#ffffff") with (35%N :: txt "ffffff").
    rewrite !color_check_literal by first [ reflexivity | simpl; lia ].
    replace (lower U (full_color (txt "ffffff")))
      with (lower U (full_color (txt "FFF"))) by reflexivity.
    destruct (mem_text _ _); split; intros H; try reflexivity; discriminate.
  - intros b sans mono pre post Hpre Hpost.
    rewrite !validate_of_rule. unfold _check_color_compliance.
    change (txt "color: #123456;" ++ post)
      with (txt "color: " ++ 35%N :: txt "123456" ++ 59%N :: post).
    change (txt "color: #6366f1;" ++ post)
      with (txt "color: " ++ 35%N :: txt "6366f1" ++ 59%N :: post).
    rewrite !(findall_color_declaration U pre post)
      by first [ assumption | intros prev rest; vm_compute; reflexivity ].
    split; reflexivity.
Qed.

(** ** Stripping *)

Section StripFacts.

Variable f : char -> bool.

Lemma lstrip_by_split (s : text) :
  exists d, s = d ++ lstrip_by f s /\ forallb f d = true.
Proof.
  induction s as [|c s [d [Hs Hd]]]; [exists []; auto|].
  simpl. destruct (f c) eqn:Hc.
  - exists (c :: d). simpl. rewrite Hc, Hd. split; [f_equal; exact Hs | reflexivity].
  - exists []. auto.
Qed.

Lemma lstrip_by_head (s : text) :
  match lstrip_by f s with
  | [] => True
  | c :: _ => f c = false
  end.
Proof.
  induction s as [|c s IH]; simpl; [exact I|].
  destruct (f c) eqn:Hc; [exact IH | exact Hc].
Qed.

Lemma lstrip_by_fixed (s : text) :
  match s with [] => True | c :: _ => f c = false end ->
  lstrip_by f s = s.
Proof. destruct s as [|c s]; simpl; [reflexivity | intros ->; reflexivity]. Qed.

Lemma lstrip_by_snoc (l : text) (c : char) :
  f c = false -> lstrip_by f (l ++ [c]) = lstrip_by f l ++ [c].
Proof.
  intros Hc. induction l as [|x l IH]; simpl.
  - rewrite Hc. reflexivity.
  - destruct (f x); [exact IH | reflexivity].
Qed.

Lemma rstrip_by_split (s : text) :
  exists d, s = rstrip_by f s ++ d /\ forallb f d = true.
Proof.
  unfold rstrip_by. destruct (lstrip_by_split (rev s)) as [d [Hs Hd]].
  exists (rev d). split.
  - rewrite <- (rev_involutive s), Hs at 1. apply rev_app_distr.
  - rewrite forallb_forall in *. intros x Hx. apply Hd, in_rev. exact Hx.
Qed.

Lemma rstrip_by_cons (c : char) (s : text) :
  f c = false -> rstrip_by f (c :: s) = c :: rstrip_by f s.
Proof.
  intros Hc. unfold rstrip_by. simpl.
  rewrite (lstrip_by_snoc _ Hc), rev_app_distr. reflexivity.
Qed.

(** Stripping leaves a text that does not start with a stripped
    character. *)
Lemma strip_by_head (s : text) :
  match strip_by f s with
  | [] => True
  | c :: _ => f c = false
  end.
Proof.
  unfold strip_by. pose proof (lstrip_by_head s) as H.
  destruct (lstrip_by f s) as [|c r]; [exact I|].
  rewrite (rstrip_by_cons r H). exact H.
Qed.

(** A prefix without stripped characters is not affected by characters
    stripped from the end. *)
Lemma startswith_ignores_stripped (p r d : text) :
  forallb (fun c => negb (f c)) p = true -> forallb f d = true ->
  startswith p (r ++ d) = startswith p r.
Proof.
  revert r. induction p as [|x p IH]; intros r Hp Hd; [destruct r; reflexivity|].
  simpl in Hp. apply andb_true_iff in Hp. destruct Hp as [Hx Hp].
  destruct r as [|y r]; simpl.
  - destruct d as [|y d]; [reflexivity|]. simpl in Hd.
    apply andb_true_iff in Hd. destruct Hd as [Hy _].
    destruct (N.eqb x y) eqn:E; [|reflexivity].
    apply N.eqb_eq in E. subst. rewrite Hy in Hx. discriminate.
  - rewrite (IH r Hp Hd). reflexivity.
Qed.

Lemma startswith_rstrip (p s : text) :
  forallb (fun c => negb (f c)) p = true ->
  startswith p (rstrip_by f s) = startswith p s.
Proof.
  intros Hp. destruct (rstrip_by_split s) as [d [Hs Hd]].
  rewrite Hs at 2. symmetry. apply startswith_ignores_stripped; assumption.
Qed.

End StripFacts.

(** On a text without leading white space, as every reply is once
    [generate_component] has stripped it, the output-format finding is
    given exactly when the text starts with a fence or has one among its
    first fifty characters. *)
Lemma output_format_check_on_replies (U : Unicode) (t : text)
    (tokens : DesignTokens) :
  of_rule OUTPUT_FORMAT (validate_component U (strip t) tokens) =
  if startswith fence (strip t) || contains fence (firstn 50 (strip t))
  then [output_format_finding] else [].
Proof.
  rewrite validate_of_rule. unfold when.
  replace (startswith fence (strip (strip t))) with (startswith fence (strip t));
    [reflexivity|].
  unfold strip at 2. unfold strip_by.
  rewrite (startswith_rstrip is_space fence _ eq_refl).
  rewrite (lstrip_by_fixed is_space (strip t) (strip_by_head is_space t)).
  reflexivity.
Qed.

(** ** Examples *)

(** The matcher on the patterns of the source. *)

Example hex_literals :
  re_findall ascii_tables re_hex_color
    (txt "#123456789 #12345 #abcg #abc-d #FFF#EEE")
  = [txt "12345"; txt "abc"; txt "FFF"; txt "EEE"].
Proof. reflexivity. Qed.

Example font_declarations :
  re_findall ascii_tables re_font_family (txt "font-family: ;x font-family:a;")
  = [txt " "; txt "a"].
Proof. reflexivity. Qed.

Example radius_declarations :
  re_findall ascii_tables re_border_radius
    (txt "border-radius: 4px 5px; borderRadius:  '3px', border-Radius 1px} borderradius:2px")
  = [txt "4px 5px"; txt " "; txt "1px"; txt "2px"].
Proof. reflexivity. Qed.

Example px_values :
  map (re_match ascii_tables re_px_value)
    [txt "12px"; txt "12px" ++ nl; txt "px"; txt "12pxx"; txt "12 px"]
  = [true; true; false; false; false].
Proof. reflexivity. Qed.

Example exported_classes :
  map (re_search ascii_tables re_export_class)
    [txt "x export  class Foo {"; txt "exportclass Foo"; txt "export class "]
  = [true; false; false].
Proof. reflexivity. Qed.

Example repr_of_strings :
  repr_list ascii_tables [txt "a'b"; txt "x"; nl ++ [c_backslash]]
  = txt "[" ++ [c_dquote] ++ txt "a'b" ++ [c_dquote] ++ txt ", 'x', '\n\\']".
Proof. reflexivity. Qed.

(** The validator on a text with findings of several rules. *)
Example findings_of_a_text :
  map str
    (validate_component ascii_tables
       (txt "((color:#06b6d4 #FFF '\' ) ' font-family: Arial; border-radius:full 17px 4px;")
       two_colors)
  = [txt "[ERROR] ANGULAR_STRUCTURE: Missing @Component decorator";
     txt "[ERROR] ANGULAR_STRUCTURE: Missing selector in @Component";
     txt "[ERROR] ANGULAR_STRUCTURE: Missing template in @Component";
     txt "[ERROR] ANGULAR_STRUCTURE: Missing exported class";
     txt "[ERROR] SYNTAX: Unclosed brackets: ['(', '(']";
     txt "[ERROR] DESIGN_TOKEN_COLOR: Color '#FFFFFF' is NOT in the design system. Allowed: ['#06b6d4', '#6366f1']";
     txt "[WARNING] DESIGN_TOKEN_RADIUS: border-radius '17px' not in design system. Allowed px values: ['4px', '9999px']";
     txt "[WARNING] DESIGN_TOKEN_FONT: Font 'Arial' not in design system. Use 'Inter' or 'JetBrains Mono'"].
Proof. reflexivity. Qed.

(** The end-to-end scenario: the first reply uses #0000ff, the feedback
    of the second call names it, and the second reply is accepted. *)
Example blue_button_scenario :
  let run := run_pipeline ascii_tables sample_json second_try_client two_colors
               (txt "a blue button") None [] in
  option_map (fun r => (r_success r, r_attempts r, r_errors r))
    (match fst run with Returned r => Some r | Raised => None end)
  = Some (true, 2, []) /\
  map (fun c => map content (skipn 1 (req_messages (call_request c)))) (snd run)
  = [ [txt "a blue button"];
      [txt "a blue button";
       txt "// previous attempt had errors";
       txt "Fix these validation errors and regenerate the COMPLETE component:

VALIDATION ERRORS FROM LINTER:
[ERROR] DESIGN_TOKEN_COLOR: Color '#0000ff' is NOT in the design system. Allowed: ['#06b6d4', '#6366f1']

Fix ALL errors above. Output ONLY the corrected raw TypeScript code."] ].
Proof. vm_compute. split; reflexivity. Qed.

Lemma Balanced_plain_all (w : text) :
  forallb (fun c => negb (is_bracket c)) w = true -> Balanced w.
Proof.
  induction w as [|c w IH]; simpl; intros H; [constructor|].
  apply andb_true_iff in H. destruct H as [Hc Hw].
  apply Balanced_plain; [apply negb_true_iff; exact Hc | apply IH; exact Hw].
Defined.

Lemma Balanced_plain_txt (s : string) :
  forallb (fun c => negb (is_bracket c)) (txt s) = true -> Balanced (txt s).
Proof. apply Balanced_plain_all. Defined.

Lemma Balanced_app (a b : text) : Balanced a -> Balanced b -> Balanced (a ++ b).
Proof.
  intros Ha Hb. induction Ha as [|c w Hc Hw IH|o w1 w2 Ho H1 IH1 H2 IH2].
  - exact Hb.
  - simpl. apply Balanced_plain; assumption.
  - simpl. rewrite <- app_assoc. simpl.
    apply Balanced_wrap; assumption.
Defined.

Lemma exhausted_budget_witness :
  List.length (snd failing_run) = MAX_RETRIES + 1.
Proof.
  refine (proj1 (@exhausted_budget_returns_best_effort ascii_tables sample_json
                   (constant_client []) sample_tokens MAX_RETRIES (txt "a card")
                   None (fst failing_run) (snd failing_run) _ _)).
  - apply surjective_pairing.
  - apply Forall_forall. intros c Hc. vm_compute in Hc.
    destruct Hc as [<- | [<- | [<- | []]]];
      (exists []; split; [reflexivity | vm_compute; discriminate]).
Defined.

Lemma first_success_witness :
  exists r c,
    run_pipeline_with ascii_tables sample_json (constant_client good_component)
      sample_tokens 5 (txt "a card") None [] = (Returned r, [c]) /\
    r_success r = true /\ r_attempts r = 1.
Proof.
  destruct (@first_success_makes_one_call ascii_tables sample_json
              (constant_client good_component) sample_tokens 5 (txt "a card")
              None good_component eq_refl)
    as [r [c [Hrun [_ [_ [Hs [Ha _]]]]]]].
  - vm_compute. reflexivity.
  - exists r, c. repeat split; assumption.
Defined.

Lemma result_reports_witness :
  exists r, fst failing_run = Returned r /\
            r_attempts r = List.length (snd failing_run) /\
            r_prompt r = txt "a card".
Proof.
  destruct failing_run as [[r|] log] eqn:E.
  - destruct (@result_reports_final_attempt ascii_tables sample_json
                (constant_client []) sample_tokens MAX_RETRIES (txt "a card")
                None r log E)
      as [earlier [c [t [_ [_ [_ [_ [_ [_ [_ [Ha Hp]]]]]]]]]]].
    exists r. repeat split; assumption.
  - vm_compute in E. discriminate.
Defined.

Lemma feedback_lists_witness :
  In arial_warning
    (validate_component ascii_tables (strip arial_reply) sample_tokens) /\
  option_map (fun c => map content (req_messages (call_request c)))
    (nth_error (snd warned_run) 1) =
  Some [build_system_prompt (sample_json sample_tokens);
        txt "a card";
        txt "// previous attempt had errors";
        txt "Fix these validation errors and regenerate the COMPLETE component:

VALIDATION ERRORS FROM LINTER:
[ERROR] ANGULAR_STRUCTURE: Missing @Component decorator
[ERROR] ANGULAR_STRUCTURE: Missing selector in @Component
[ERROR] ANGULAR_STRUCTURE: Missing template in @Component
[ERROR] ANGULAR_STRUCTURE: Missing exported class
[ERROR] DESIGN_TOKEN_COLOR: Color '#123456' is NOT in the design system. Allowed: ['#6366f1']

Fix ALL errors above. Output ONLY the corrected raw TypeScript code."].
Proof.
  split; [vm_compute; tauto|].
  destruct (nth_error (snd warned_run) 1) as [c'|] eqn:Hc'.
  - cbn [option_map].
    rewrite (proj2 (proj1 (proj2
              (@feedback_lists_the_errors ascii_tables sample_json
                 (constant_client arial_reply) sample_tokens MAX_RETRIES
                 (txt "a card") None (fst warned_run) (snd warned_run) 0
                 (call_of (constant_client arial_reply)
                    (build_system_prompt (sample_json sample_tokens))
                    (txt "a card") [] [])
                 arial_reply (surjective_pairing _) eq_refl eq_refl)) c' Hc')).
    vm_compute. reflexivity.
  - vm_compute in Hc'. discriminate.
Defined.

Lemma bracket_balance_witness :
  _check_bracket_balance ascii_tables (txt "f(x) { return ']'; }") = [] /\
  _check_bracket_balance ascii_tables (txt "a = [1, 2);") =
    [unmatched_closing 41%N 9] /\
  _check_bracket_balance ascii_tables (txt "if (x) { y();") =
    [unclosed_brackets ascii_tables (txt "{")].
Proof.
  split; [|split].
  - apply (proj1 (bracket_balance_check ascii_tables _)).
    exact (Balanced_app (Balanced_plain_txt "f" eq_refl)
             (Balanced_wrap 40%N eq_refl (Balanced_plain_txt "x" eq_refl)
                (Balanced_app (Balanced_plain_txt " " eq_refl)
                   (Balanced_wrap 123%N eq_refl (Balanced_plain_txt " return ; " eq_refl)
                      Balanced_nil)))).
  - apply (proj1 (proj2 (bracket_balance_check ascii_tables (txt "a = [1, 2);")))
             [(0, 97%N); (1, 32%N); (2, 61%N); (3, 32%N); (4, 91%N);
              (5, 49%N); (6, 44%N); (7, 32%N); (8, 50%N)]
             9 41%N [(10, 59%N)] (txt "[")).
    + reflexivity.
    + exact (@LeftOpen_more (txt "a = ") [] 91%N (txt "1, 2")
               (LeftOpen_none (Balanced_plain_txt "a = " eq_refl)) eq_refl
               (Balanced_plain_txt "1, 2" eq_refl)).
    + reflexivity.
    + right. vm_compute. discriminate.
  - apply (proj1 (proj2 (proj2 (bracket_balance_check ascii_tables _)))).
    + exact (@LeftOpen_more (txt "if (x) ") [] 123%N (txt " y();")
               (LeftOpen_none
                  (Balanced_app (Balanced_plain_txt "if " eq_refl)
                     (Balanced_wrap 40%N eq_refl (Balanced_plain_txt "x" eq_refl)
                        (Balanced_plain_txt " " eq_refl))))
               eq_refl
               (Balanced_app (Balanced_plain_txt " y" eq_refl)
                  (Balanced_wrap 40%N eq_refl Balanced_nil
                     (Balanced_plain_txt ";" eq_refl)))).
    + discriminate.
Defined.

Lemma builtin_fonts_witness :
  _check_font_compliance ascii_tables (txt "font-family: Inter;")
    sample_tokens = [].
Proof.
  refine (proj1 (@builtin_fonts_always_pass ascii_tables
                   (txt "font-family: Inter;") sample_tokens _)).
  intros m Hm. vm_compute in Hm. destruct Hm as [<- | []].
  left. reflexivity.
Defined.

Lemma color_check_witness :
  of_rule DESIGN_TOKEN_COLOR
    (validate_component ascii_tables (txt "color: #6366f1;") sample_tokens)
  = [] /\
  (_check_color_compliance ascii_tables (txt "#abc") sample_tokens = [] <->
   _check_color_compliance ascii_tables (txt "#ABC") sample_tokens = []).
Proof.
  split.
  - exact (proj2 (proj2 (proj2 (proj2 (color_check_case_and_short_form
                                          ascii_tables)))
                    [(txt "radius-sm", txt "4px")] (txt "Roboto")
                    (txt "Fira Code") [] [] eq_refl eq_refl)).
  - apply (proj1 (proj2 (color_check_case_and_short_form ascii_tables))
             sample_tokens (txt "abc") (txt "ABC")).
    + reflexivity.
    + reflexivity.
    + simpl. lia.
    + simpl. lia.
    + reflexivity.
Defined.

Lemma checks_compare_witness :
  _check_color_compliance ascii_tables (txt "color: #6366F1;") sample_tokens
  = [].
Proof.
  apply (proj2 (proj1 (checks_compare_with_tokens ascii_tables
                         (txt "color: #6366F1;") sample_tokens))).
  intros h Hh. vm_compute in Hh. destruct Hh as [<- | []].
  exists (txt "primary"), (txt "#6366f1").
  split; [left; reflexivity | reflexivity].
Defined.

Lemma empty_text_witness :
  exists r, fst failing_run = Returned r /\ r_success r = false.
Proof.
  destruct failing_run as [[r|] log] eqn:E.
  - exists r. split; [reflexivity|].
    apply (proj2 (empty_text_is_rejected ascii_tables sample_tokens)
             sample_json (constant_client []) MAX_RETRIES (txt "a card") None
             r log E).
    vm_compute in E. inversion E. reflexivity.
  - vm_compute in E. discriminate.
Defined.

(* ------------------------------------------------------------------ *)
(** * Further properties of the pipeline *)

Section MorePipelineFacts.

Variable U : Unicode.
Variable client : Groq.
Variable tokens : DesignTokens.
Variables (max_retries : nat) (system_prompt full_prompt : text).

Let loop := attempt_loop U client tokens max_retries system_prompt full_prompt.

(** An iteration always makes a call. *)
Lemma attempt_loop_calls (remaining attempt : nat) (vars : LoopVars)
    (log : Log) (out : Outcome LoopVars) (log' : Log) :
  loop (S remaining) attempt vars log = (out, log') ->
  exists calls, log' = log ++ calls /\
                1 <= List.length calls <= S remaining.
Proof.
  intros H. pose proof H as Hlog. apply attempt_loop_log in Hlog.
  destruct Hlog as [calls [-> Hle]]. exists calls.
  split; [reflexivity|]. split; [|exact Hle].
  unfold loop in H. rewrite attempt_loop_step in H. cbv zeta in H.
  assert (Hgrow : forall o l, (o, l) = (out, log ++ calls) ->
                              List.length log < List.length l ->
                              1 <= List.length calls).
  { intros o l E Hl. inversion E; subst. rewrite length_app in Hl. lia. }
  destruct (call_reply _).
  - destruct (hard_errors_of _).
    + apply (Hgrow _ _ H). rewrite length_app. simpl. lia.
    + pose proof H as H'. apply attempt_loop_log in H'.
      destruct H' as [rest [E _]]. rewrite <- app_assoc in E.
      apply app_inv_head in E. subst. simpl. lia.
  - apply (Hgrow _ _ H). rewrite length_app. simpl. lia.
Qed.

(** A loop that raises stops at the call that failed. *)
Lemma attempt_loop_raised (remaining : nat) :
  forall attempt vars log log',
    loop remaining attempt vars log = (Raised, log') ->
    exists calls c, log' = log ++ calls ++ [c] /\ call_reply c = None.
Proof.
  induction remaining as [|remaining IH]; intros attempt vars log log' H.
  - discriminate.
  - unfold loop in H. rewrite attempt_loop_step in H. cbv zeta in H.
    destruct (call_reply (call_of client system_prompt full_prompt
                            (v_feedback vars) log)) as [t|] eqn:Er.
    + destruct (hard_errors_of _); [discriminate|].
      apply IH in H. destruct H as [calls [c [-> Hc]]].
      exists (call_of client system_prompt full_prompt (v_feedback vars) log
                :: calls), c.
      rewrite <- app_assoc. split; [reflexivity | exact Hc].
    + inversion H; subst.
      exists [], (call_of client system_prompt full_prompt (v_feedback vars) log).
      split; [reflexivity | exact Er].
Qed.

End MorePipelineFacts.


(** Stripping twice is stripping once. *)
Lemma lstrip_by_idem (f : char -> bool) (s : text) :
  lstrip_by f (lstrip_by f s) = lstrip_by f s.
Proof. apply lstrip_by_fixed, lstrip_by_head. Qed.

Lemma rstrip_by_idem (f : char -> bool) (s : text) :
  rstrip_by f (rstrip_by f s) = rstrip_by f s.
Proof.
  unfold rstrip_by. rewrite rev_involutive, lstrip_by_idem. reflexivity.
Qed.

Lemma strip_idem (s : text) : strip (strip s) = strip s.
Proof.
  unfold strip, strip_by at 1.
  rewrite (lstrip_by_fixed is_space _ (strip_by_head is_space s)).
  unfold strip_by. apply rstrip_by_idem.
Qed.

(** A stripped text does not end with a stripped character either. *)
Lemma rstrip_by_last (f : char -> bool) (s : text) :
  match rev (rstrip_by f s) with
  | [] => True
  | c :: _ => f c = false
  end.
Proof.
  unfold rstrip_by. rewrite rev_involutive. apply lstrip_by_head.
Qed.

Section FailedCallFacts.

Variable U : Unicode.
Variable client : Groq.
Variable tokens : DesignTokens.
Variables (max_retries : nat) (system_prompt full_prompt : text).

Let loop := attempt_loop U client tokens max_retries system_prompt full_prompt.

(** A call that failed is the last call of the loop, and the loop
    raised. *)
Lemma attempt_loop_failed_call (remaining attempt : nat) (vars : LoopVars)
    (log : Log) (out : Outcome LoopVars) (calls : list Call)
    (k : nat) (c : Call) :
  loop remaining attempt vars log = (out, log ++ calls) ->
  attempt + remaining <= max_retries + 1 ->
  nth_error calls k = Some c ->
  call_reply c = None ->
  out = Raised /\ List.length calls = S k.
Proof.
  intros Hloop Hb Hk Hc.
  assert (Hlen : List.length calls = S k).
  { destruct (nth_error calls (S k)) as [c'|] eqn:Hnext.
    - destruct (@attempt_loop_requests _ _ _ _ _ _ _ _ _ _ _ _ Hloop Hb)
        as [_ Hn].
      destruct (Hn k c c' Hk Hnext) as [t [Ht _]].
      rewrite Hc in Ht. discriminate.
    - apply nth_error_None in Hnext.
      assert (k < List.length calls) by (apply nth_error_Some; congruence).
      lia. }
  split; [|exact Hlen].
  destruct out as [vars'|]; [|reflexivity].
  destruct remaining as [|remaining].
  - inversion Hloop as [[Hv Hl]].
    rewrite <- (app_nil_r log) in Hl at 1. apply app_inv_head in Hl.
    subst calls. discriminate.
  - destruct (@attempt_loop_returned _ _ _ _ _ _ _ _ _ _ _ _ Hloop)
      as [calls' [c' [t [Hlog [Hr _]]]]].
    apply app_inv_head in Hlog. subst calls.
    rewrite length_app in Hlen. cbn [List.length] in Hlen.
    assert (k = List.length calls') by lia. subst k.
    rewrite nth_error_app2 in Hk by lia. rewrite Nat.sub_diag in Hk.
    inversion Hk; subst c'. rewrite Hc in Hr. discriminate.
Qed.

End FailedCallFacts.

(** What the log of a run is: the log before it, then the calls it
    made. *)
Lemma run_pipeline_with_calls (U : Unicode) (json_dumps : DesignTokens -> text)
    (client : Groq) (tokens : DesignTokens) (budget : nat)
    (user_prompt : text) (history : option (list Message)) (log : Log)
    (out : Outcome PipelineResult) (log' : Log) :
  run_pipeline_with U json_dumps client tokens budget user_prompt history log
    = (out, log') ->
  exists calls,
    log' = log ++ calls /\
    List.length calls <= budget + 1 /\
    (forall r, out = Returned r -> 1 <= List.length calls) /\
    (forall k c, nth_error calls k = Some c -> call_reply c = None ->
                 out = Raised /\ List.length calls = S k) /\
    (forall k c, nth_error calls k = Some c -> S k < List.length calls ->
                 reply_has_errors U tokens c).
Proof.
  intros Hrun.
  rewrite (run_pipeline_with_loop U json_dumps client tokens budget
             user_prompt history log eq_refl eq_refl) in Hrun.
  destruct (attempt_loop _ _ _ _ _ _ _ _ _ _) as [o l] eqn:Hloop.
  assert (l = log') by (destruct o; inversion Hrun; reflexivity). subst l.
  pose proof Hloop as Hcalls. rewrite Nat.add_1_r in Hcalls.
  apply attempt_loop_calls in Hcalls. destruct Hcalls as [calls [-> Hlen]].
  exists calls. split; [reflexivity|].
  split; [lia|]. split; [intros; lia|]. split.
  - intros k c Hk Hc.
    destruct (@attempt_loop_failed_call _ _ _ _ _ _ _ _ _ _ _ _ k c Hloop
                ltac:(lia) Hk Hc) as [Ho Hl].
    split; [|exact Hl]. subst o. inversion Hrun. reflexivity.
  - intros k c Hk Hlt.
    destruct (nth_error calls (S k)) as [c'|] eqn:Hnext.
    + destruct (@attempt_loop_requests _ _ _ _ _ _ _ _ _ _ _ _ Hloop
                  ltac:(lia)) as [_ Hn].
      destruct (Hn k c c' Hk Hnext) as [t [Ht [Hne _]]].
      exists t. split; assumption.
    + apply nth_error_None in Hnext. lia.
Qed.

(** X1. No run makes more calls than one more than its budget of
    retries, and a run that returns a result made at least one. *)
Theorem run_call_count (U : Unicode) (json_dumps : DesignTokens -> text)
    (client : Groq) (tokens : DesignTokens) (budget : nat)
    (user_prompt : text) (history : option (list Message))
    (out : Outcome PipelineResult) (log : Log) :
  run_pipeline_with U json_dumps client tokens budget user_prompt history []
    = (out, log) ->
  List.length log <= budget + 1 /\
  (forall r, out = Returned r -> 1 <= List.length log).
Proof.
  intros Hrun. apply run_pipeline_with_calls in Hrun.
  destruct Hrun as [calls [-> [Hle [Hge _]]]]. simpl. split; assumption.
Qed.

(** X2. A call that fails is not retried: it is the last call of the run,
    and the run raises.  Every call followed by another was answered, by
    a text with error findings. *)
Theorem failed_call_ends_the_run (U : Unicode)
    (json_dumps : DesignTokens -> text) (client : Groq)
    (tokens : DesignTokens) (budget : nat) (user_prompt : text)
    (history : option (list Message))
    (out : Outcome PipelineResult) (log : Log) :
  run_pipeline_with U json_dumps client tokens budget user_prompt history []
    = (out, log) ->
  (forall k c, nth_error log k = Some c -> call_reply c = None ->
               out = Raised /\ List.length log = S k) /\
  (forall k c, nth_error log k = Some c -> S k < List.length log ->
               reply_has_errors U tokens c).
Proof.
  intros Hrun. apply run_pipeline_with_calls in Hrun.
  destruct Hrun as [calls [-> [_ [_ [Hfail Hprev]]]]]. simpl.
  split; assumption.
Qed.

(** X3. Every request of a run names the same model and limits and starts
    with the system prompt and the prompt of the run; the first request
    holds nothing else, and every later one holds two more turns, the
    second of which carries the feedback. *)
Theorem requests_of_a_run (U : Unicode) (json_dumps : DesignTokens -> text)
    (client : Groq) (tokens : DesignTokens) (budget : nat)
    (user_prompt : text) (history : option (list Message))
    (k : nat) (c : Call) :
  nth_error
    (snd (run_pipeline_with U json_dumps client tokens budget user_prompt
            history [])) k = Some c ->
  req_model (call_request c) = MODEL /\
  req_temperature_tenths (call_request c) = 3 /\
  req_max_tokens (call_request c) = 4096%N /\
  firstn 2 (req_messages (call_request c)) =
    [system (build_system_prompt (json_dumps tokens));
     user (full_prompt_of user_prompt history)] /\
  List.length (req_messages (call_request c)) =
    (if Nat.eqb k 0 then 2 else 4).
Proof.
  rewrite (run_pipeline_with_loop U json_dumps client tokens budget
             user_prompt history [] eq_refl eq_refl).
  destruct (attempt_loop _ _ _ _ _ _ _ _ _ _) as [o log] eqn:Hloop.
  replace (snd (let (o0, l) := (o, log) in
                match o0 with
                | Returned vars => (Returned (result_of user_prompt vars), l)
                | Raised => (Raised, l)
                end)) with log by (destruct o; reflexivity).
  intros Hk.
  destruct (@attempt_loop_requests _ _ _ _ _ _ _ _ _ [] _ log Hloop
              ltac:(lia)) as [Hfirst Hnext].
  destruct k as [|k].
  - rewrite (Hfirst c Hk). repeat split.
  - destruct (nth_error log k) as [c0|] eqn:Hprev.
    + destruct (Hnext k c0 c Hprev Hk) as [t [_ [_ ->]]]. repeat split.
    + apply nth_error_None in Hprev.
      assert (S k < List.length log) by (apply nth_error_Some; congruence).
      lia.
Qed.

(** X4. The text that a run returns has no white space at either end. *)
Theorem returned_code_is_stripped (U : Unicode)
    (json_dumps : DesignTokens -> text) (client : Groq)
    (tokens : DesignTokens) (budget : nat) (user_prompt : text)
    (history : option (list Message)) (r : PipelineResult) (log : Log) :
  run_pipeline_with U json_dumps client tokens budget user_prompt history []
    = (Returned r, log) ->
  strip (r_code r) = r_code r /\
  match r_code r with [] => True | c :: _ => is_space c = false end /\
  match rev (r_code r) with [] => True | c :: _ => is_space c = false end.
Proof.
  intros Hrun.
  rewrite (run_pipeline_with_loop U json_dumps client tokens budget
             user_prompt history [] eq_refl eq_refl) in Hrun.
  destruct (attempt_loop _ _ _ _ _ _ _ _ _ _) as [[vars'|] log'] eqn:Hloop;
    [|discriminate].
  inversion Hrun; subst r log'. clear Hrun.
  rewrite Nat.add_1_r in Hloop.
  destruct (@attempt_loop_returned _ _ _ _ _ _ _ _ _ _ _ _ Hloop)
    as [calls [c [t [_ [_ [Hc _]]]]]].
  unfold result_of. cbn [r_code]. rewrite Hc.
  split; [apply strip_idem|].
  split; [apply (strip_by_head is_space)|].
  apply (rstrip_by_last is_space).
Qed.

(** The line of the prompt that renders one turn. *)
Lemma full_prompt_of_turns (user_prompt : text) (history : list Message) :
  history <> [] ->
  full_prompt_of user_prompt (Some history) =
  txt "Previous conversation context:" ++ nl
  ++ join nl
       (map (fun h => txt "[Previous turn - " ++ role h ++ txt "]: "
                      ++ firstn 200 (content h) ++ txt "...")
            (skipn (List.length history - 4) history))
  ++ nl ++ nl ++ txt "New request: " ++ user_prompt.
Proof. destruct history; [congruence | reflexivity]. Qed.

(** X5. The prompt sent to the generator depends on the conversation only
    through its last four turns and the first 200 characters of each; an
    empty conversation is no conversation. *)
Theorem prompt_reads_a_window (user_prompt : text) (history : list Message) :
  full_prompt_of user_prompt (Some history) =
  full_prompt_of user_prompt
    (Some (map (fun h => {| role := role h;
                            content := firstn 200 (content h) |})
               (skipn (List.length history - 4) history))) /\
  (history = [] ->
   full_prompt_of user_prompt (Some history) = user_prompt) /\
  (history <> [] ->
   startswith (txt "Previous conversation context:")
     (full_prompt_of user_prompt (Some history)) = true).
Proof.
  split; [|split].
  - destruct history as [|h0 rest]; [reflexivity|].
    set (history := h0 :: rest).
    set (window := skipn (List.length history - 4) history).
    assert (Hlen : List.length window <= 4)
      by (unfold window; rewrite length_skipn; lia).
    assert (Hne : window <> []).
    { unfold window. intros E. apply (f_equal (@List.length _)) in E.
      rewrite length_skipn in E. unfold history in E.
      cbn [List.length] in E. lia. }
    rewrite (@full_prompt_of_turns user_prompt history) by discriminate.
    rewrite full_prompt_of_turns
      by (intros E; apply map_eq_nil in E; contradiction).
    fold window. rewrite length_map.
    replace (List.length window - 4) with 0 by lia.
    cbn [skipn]. rewrite map_map.
    do 4 f_equal. apply map_ext. intros h. cbn [role content].
    rewrite firstn_firstn. reflexivity.
  - intros ->. reflexivity.
  - intros Hne. destruct history; [congruence | reflexivity].
Qed.

(* ------------------------------------------------------------------ *)
(** * Further properties of the validator *)

(** ** Severities *)

Lemma filter_all (A : Type) (p : A -> bool) (l : list A) :
  Forall (fun x => p x = true) l -> filter p l = l.
Proof.
  induction 1 as [|x l Hx _ IH]; simpl; [reflexivity|].
  rewrite Hx, IH. reflexivity.
Qed.

Lemma filter_none (A : Type) (p : A -> bool) (l : list A) :
  Forall (fun x => p x = false) l -> filter p l = [].
Proof.
  induction 1 as [|x l Hx _ IH]; simpl; [reflexivity|].
  rewrite Hx. exact IH.
Qed.

Lemma flat_map_all (A B : Type) (P : B -> Prop) (f : A -> list B)
    (l : list A) :
  (forall x, Forall P (f x)) -> Forall P (flat_map f l).
Proof.
  intros H. induction l as [|a l IH]; simpl; [constructor|].
  apply Forall_app. split; [apply H | exact IH].
Qed.

Section SeverityFacts.

Variable U : Unicode.

Lemma stack_check_errors (w : list (nat * char)) :
  forall stack, Forall (fun e => is_error e = true) (stack_check U w stack).
Proof.
  induction w as [|[i ch] w IH]; intros stack; simpl.
  - destruct stack; auto.
  - destruct (is_open ch); [apply IH|].
    destruct (is_close ch); [|apply IH].
    destruct (_ || _); [auto | apply IH].
Qed.

Lemma bracket_errors (code : text) :
  Forall (fun e => is_error e = true) (_check_bracket_balance U code).
Proof. rewrite check_bracket_balance_refines. apply stack_check_errors. Qed.

Lemma color_errors (code : text) (tokens : DesignTokens) :
  Forall (fun e => is_error e = true) (_check_color_compliance U code tokens).
Proof.
  apply flat_map_all. intros h. cbv beta zeta. destruct (negb _); auto.
Qed.

Lemma radius_warnings (code : text) (tokens : DesignTokens) :
  Forall (fun e => is_error e = false)
         (_check_border_radius_compliance U code tokens).
Proof.
  apply flat_map_all. intros m. apply flat_map_all. intros v.
  cbv beta zeta. destruct (_ && _); auto.
Qed.

Lemma font_warnings (code : text) (tokens : DesignTokens) :
  Forall (fun e => is_error e = false) (_check_font_compliance U code tokens).
Proof.
  apply flat_map_all. intros m. cbv beta zeta. destruct (negb _); auto.
Qed.

Lemma when_errors (b : bool) (e : ValidationError) :
  is_error e = true -> Forall (fun x => is_error x = true) (when b e).
Proof. intros H. destruct b; simpl; auto. Qed.

Lemma is_warning_not_error (e : ValidationError) :
  is_warning e = negb (is_error e).
Proof. destruct e as [r m [|]]; reflexivity. Qed.

End SeverityFacts.

Lemma findings_by_severity (U : Unicode) (code : text)
    (tokens : DesignTokens) :
  hard_errors_of (validate_component U code tokens) =
    of_rule ANGULAR_STRUCTURE (validate_component U code tokens)
    ++ _check_bracket_balance U code
    ++ _check_color_compliance U code tokens
    ++ of_rule OUTPUT_FORMAT (validate_component U code tokens) /\
  warnings_of (validate_component U code tokens) =
    _check_border_radius_compliance U code tokens
    ++ _check_font_compliance U code tokens.
Proof.
  rewrite !validate_of_rule.
  assert (Hw : forall l, Forall (fun e => is_error e = false) l ->
                         Forall (fun e => is_warning e = true) l).
  { intros l H. eapply Forall_impl; [|exact H]. intros e He.
    rewrite is_warning_not_error, He. reflexivity. }
  assert (He : forall l, Forall (fun e => is_error e = true) l ->
                         Forall (fun e => is_warning e = false) l).
  { intros l H. eapply Forall_impl; [|exact H]. intros e He'.
    rewrite is_warning_not_error, He'. reflexivity. }
  pose proof (bracket_errors U code) as Hb.
  pose proof (color_errors U code tokens) as Hc.
  pose proof (radius_warnings U code tokens) as Hr.
  pose proof (font_warnings U code tokens) as Hf.
  assert (Hs : forall b msg,
            Forall (fun e => is_error e = true) (when b (structure_finding msg)))
    by (intros; apply when_errors; reflexivity).
  assert (Ho : forall b,
            Forall (fun e => is_error e = true) (when b output_format_finding))
    by (intros; apply when_errors; reflexivity).
  unfold validate_component, hard_errors_of, warnings_of.
  rewrite !filter_app. split.
  - rewrite !(filter_all _ (Hs _ _)), (filter_all _ Hb), (filter_all _ Hc),
      (filter_none _ Hr), (filter_none _ Hf), (filter_all _ (Ho _)).
    cbn [app]. rewrite <- !app_assoc. reflexivity.
  - rewrite !(filter_none _ (He _ (Hs _ _))), (filter_none _ (He _ Hb)),
      (filter_none _ (He _ Hc)), (filter_all _ (Hw _ Hr)),
      (filter_all _ (Hw _ Hf)), (filter_none _ (He _ (Ho _))).
    cbn [app]. rewrite app_nil_r. reflexivity.
Qed.


(** ** The bracket check is exact *)

Lemma is_close_cases (c : char) :
  is_close c = true -> c = 41%N \/ c = 125%N \/ c = 93%N.
Proof.
  unfold is_close, mem_char. simpl. rewrite !orb_true_iff, !N.eqb_eq.
  intros [H | [H | [H | H]]]; auto; discriminate.
Qed.

Lemma closer_pairs (c : char) : is_close c = true -> closer (pairs c) = c.
Proof.
  intros H. destruct (is_close_cases c H) as [-> | [-> | ->]]; reflexivity.
Qed.

Lemma Closes_prepend (stack w b : text) :
  Closes stack w -> Balanced b -> Closes stack (b ++ w).
Proof.
  intros Hc Hb. destruct Hc as [w Hw | stack o w1 w2 H1 H2].
  - apply Closes_nil. apply Balanced_app; assumption.
  - rewrite app_assoc. apply Closes_snoc; [|exact H2].
    apply Balanced_app; assumption.
Qed.

Lemma Closes_snoc_inv (stack w : text) (o : char) :
  Closes (stack ++ [o]) w ->
  exists w1 w2, w = w1 ++ closer o :: w2 /\ Balanced w1 /\ Closes stack w2.
Proof.
  intros H. inversion H as [w' Hw E | stack' o' w1 w2 H1 H2 E Ew].
  - destruct stack; discriminate.
  - apply app_inj_tail in E. destruct E as [-> ->].
    exists w1, w2. auto.
Qed.

Section BracketExact.

Variable U : Unicode.

(** A run of the stack without findings closes what was open. *)
Lemma stack_check_nil_closes (w : list (nat * char)) :
  forall stack, stack_check U w stack = [] -> Closes stack (map snd w).
Proof.
  induction w as [|[i ch] w IH]; intros stack H; simpl in *.
  - destruct stack; [|discriminate]. apply Closes_nil. constructor.
  - destruct (is_open ch) eqn:Ho.
    + apply IH in H. apply Closes_snoc_inv in H.
      destruct H as [w1 [w2 [-> [H1 H2]]]].
      replace (ch :: w1 ++ closer ch :: w2)
        with ((ch :: w1 ++ closer ch :: []) ++ w2)
        by (simpl; rewrite <- app_assoc; reflexivity).
      apply Closes_prepend; [exact H2|].
      apply Balanced_wrap; [exact Ho | exact H1 | constructor].
    + destruct (is_close ch) eqn:Hc.
      * destruct stack as [|s0 stack0]; [simpl in H; discriminate|].
        destruct (@exists_last _ (s0 :: stack0) ltac:(discriminate))
          as [stack' [top Est]].
        rewrite Est in *. rewrite last_last, removelast_last in H.
        replace (match stack' ++ [top] with [] => true | _ :: _ => false end)
          with false in H by (destruct stack'; reflexivity).
        simpl in H. destruct (N.eqb top (pairs ch)) eqn:Et; [|discriminate].
        simpl in H. apply N.eqb_eq in Et. subst top. apply IH in H.
        rewrite <- (closer_pairs ch Hc) at 2.
        apply (@Closes_snoc stack' (pairs ch) []); [constructor | exact H].
      * apply IH in H.
        change (ch :: map snd w) with ([ch] ++ map snd w).
        apply Closes_prepend; [exact H|].
        apply Balanced_plain; [|constructor].
        unfold is_bracket. rewrite Ho, Hc. reflexivity.
Qed.

Lemma removelast_opens (stack : text) :
  forallb is_open stack = true -> forallb is_open (removelast stack) = true.
Proof.
  intros H. rewrite forallb_forall in *. intros c Hc. apply H.
  destruct stack as [|s0 stack]; [destruct Hc|].
  rewrite (app_removelast_last 0%N (l := s0 :: stack)) by discriminate.
  apply in_or_app. left. exact Hc.
Qed.

(** What the stack can report. *)
Lemma stack_check_outcomes (w : list (nat * char)) :
  forall stack, forallb is_open stack = true ->
    stack_check U w stack = [] \/
    (exists i c, In (i, c) w /\ is_close c = true /\
                 stack_check U w stack = [unmatched_closing c i]) \/
    (exists opened, opened <> [] /\ forallb is_open opened = true /\
                    stack_check U w stack = [unclosed_brackets U opened]).
Proof.
  induction w as [|[i ch] w IH]; intros stack Hs; simpl.
  - destruct stack as [|s0 stack]; [left; reflexivity|].
    right. right. exists (s0 :: stack).
    split; [discriminate | split; [exact Hs | reflexivity]].
  - assert (Hnext : forall stack', forallb is_open stack' = true ->
              stack_check U w stack' = [] \/
              (exists i0 c, (((i, ch) = (i0, c)) \/ In (i0, c) w) /\
                            is_close c = true /\
                            stack_check U w stack' = [unmatched_closing c i0]) \/
              (exists opened, opened <> [] /\ forallb is_open opened = true /\
                              stack_check U w stack' = [unclosed_brackets U opened])).
    { intros stack' Hs'. destruct (IH stack' Hs') as [H | [H | H]]; auto.
      destruct H as [i0 [c [Hin H]]]. right. left. exists i0, c. auto. }
    destruct (is_open ch) eqn:Ho.
    + apply Hnext. rewrite forallb_app, Hs. simpl. rewrite Ho. reflexivity.
    + destruct (is_close ch) eqn:Hc; [|apply Hnext; exact Hs].
      destruct (_ || _).
      * right. left. exists i, ch. auto.
      * apply Hnext. apply removelast_opens. exact Hs.
Qed.

End BracketExact.

Lemma bracket_check_nil_iff (U : Unicode) (code : text) :
  _check_bracket_balance U code = [] <-> Balanced (outside_literals code).
Proof.
  rewrite check_bracket_balance_refines. split.
  - intros H. apply stack_check_nil_closes in H.
    inversion H as [w Hw E | stack o w1 w2 H1 H2 E Ew]; [exact Hw|].
    destruct stack; discriminate.
  - intros Hb. rewrite <- (app_nil_r (outside_indexed code)).
    apply (stack_check_balanced U Hb). reflexivity.
Qed.

(** X8. The bracket check reports at most one thing: nothing, or one closing
    bracket of the text that lies outside literals, with its position,
    or the opening brackets left on the stack. *)
Theorem bracket_check_outcomes (U : Unicode) (code : text) :
  _check_bracket_balance U code = [] \/
  (exists i c, nth_error code i = Some c /\ is_close c = true /\
               In (i, c) (outside_indexed code) /\
               _check_bracket_balance U code = [unmatched_closing c i]) \/
  (exists opened, opened <> [] /\ forallb is_open opened = true /\
                  _check_bracket_balance U code = [unclosed_brackets U opened]).
Proof.
  rewrite check_bracket_balance_refines.
  destruct (stack_check_outcomes U (outside_indexed code) [] eq_refl)
    as [H | [[i [c [Hin [Hc H]]]] | H]]; auto.
  right. left. exists i, c.
  pose proof Hin as Hpos.
  apply (@outside_from_position (List.length code) code (le_n _)) in Hpos.
  destruct Hpos as [_ Hn]. rewrite Nat.sub_0_r in Hn. auto.
Qed.

(** ** The colour literals that the check reads *)

Section LiteralFacts.

Variable U : Unicode.

Lemma try_down_some (A : Type) (f : nat -> option A) (lo : nat) (r : A) :
  forall k, try_down f lo k = Some r ->
            exists j, lo <= j <= k /\ f j = Some r.
Proof.
  induction k as [|k IH]; simpl; intros H.
  - destruct (Nat.ltb 0 lo) eqn:E; [discriminate|].
    apply Nat.ltb_ge in E. destruct (f 0) eqn:Ef; [|discriminate].
    exists 0. split; [lia | congruence].
  - destruct (Nat.ltb (S k) lo) eqn:E; [discriminate|].
    apply Nat.ltb_ge in E. destruct (f (S k)) eqn:Ef.
    + exists (S k). split; [lia | congruence].
    + destruct (IH H) as [j [Hj Hf]]. exists j. split; [lia | exact Hf].
Qed.

Lemma run_bounds (cls : cclass) (s : text) :
  forall hi,
    run U cls hi s <= List.length s /\
    (forall n, hi = Some n -> run U cls hi s <= n) /\
    forallb (class_mem U cls) (firstn (run U cls hi s) s) = true.
Proof.
  induction s as [|c s IH]; intros hi.
  - assert (E : run U cls hi [] = 0) by (destruct hi as [[|n]|]; reflexivity).
    rewrite E. split; [simpl; lia | split; [intros; lia | reflexivity]].
  - destruct hi as [[|n]|].
    + change (run U cls (Some 0) (c :: s)) with 0.
      split; [simpl; lia | split; [intros; lia | reflexivity]].
    + cbn [run option_map Nat.pred]. destruct (class_mem U cls c) eqn:Ec.
      * destruct (IH (Some n)) as [H1 [H2 H3]].
        split; [simpl; lia | split].
        -- intros m Hm. inversion Hm; subst. specialize (H2 n eq_refl). lia.
        -- cbn [firstn forallb]. rewrite Ec, H3. reflexivity.
      * split; [simpl; lia | split; [intros; lia | reflexivity]].
    + cbn [run option_map]. destruct (class_mem U cls c) eqn:Ec.
      * destruct (IH None) as [H1 [_ H3]].
        split; [simpl; lia | split; [discriminate|]].
        cbn [firstn forallb]. rewrite Ec, H3. reflexivity.
      * split; [simpl; lia | split; [discriminate | reflexivity]].
Qed.

Lemma forallb_firstn_le (f : char -> bool) (s : text) (j k : nat) :
  j <= k -> forallb f (firstn k s) = true -> forallb f (firstn j s) = true.
Proof.
  revert j k. induction s as [|c s IH]; intros j k Hle H.
  - destruct j; reflexivity.
  - destruct j as [|j]; [reflexivity|]. destruct k as [|k]; [lia|].
    simpl in *. apply andb_true_iff in H. destruct H as [Hc Hs].
    rewrite Hc. apply (IH j k); [lia | exact Hs].
Qed.

(** A match of the colour pattern: a hash sign and then three to eight
    hexadecimal digits, which are the group. *)
Lemma match_hex_shape (prev : option char) (s : text) (m : span) :
  match_at U re_hex_color prev s = Some m ->
  exists s',
    s = 35%N :: s' /\
    3 <= List.length (group_text m s) <= 8 /\
    forallb hex_digit_char (group_text m s) = true /\
    group_text m s = firstn (List.length (group_text m s)) s' /\
    m_len m = S (List.length (group_text m s)).
Proof.
  intros H. destruct s as [|c s']; [discriminate|].
  destruct (N.eqb c 35) eqn:Ec.
  2:{ rewrite match_hex_needs_hash in H; [discriminate|].
      simpl. intros E. inversion E; subst. discriminate. }
  apply N.eqb_eq in Ec. subst c. exists s'. split; [reflexivity|].
  unfold match_at, re_hex_color in H.
  change (lit "#") with [Rep (OneOf [CChar 35%N]) 1 (Some 1)] in H.
  cbn [app match_here] in H.
  apply try_down_some in H. destruct H as [j [Hj H]].
  assert (j = 1) by (destruct Hj as [Hlo Hhi]; destruct s'; cbn in Hhi; lia).
  subst j. clear Hj.
  cbn [prev_after nth_error skipn Nat.add match_here] in H.
  apply try_down_some in H. destruct H as [k [Hk H]].
  destruct (run_bounds hex_class s' (Some 8)) as [Hlen [Hhi Hall]].
  specialize (Hhi 8 eq_refl).
  cbn [match_here] in H.
  destruct (xorb _ _); [|discriminate].
  inversion H; subst m. unfold group_text. cbn [g_start g_end m_len skipn].
  replace (S k - 1) with k by lia.
  assert (Hk' : List.length (firstn k s') = k)
    by (rewrite length_firstn; lia).
  rewrite Hk'. split; [lia|]. split; [|split; reflexivity].
  pose proof (@forallb_firstn_le (class_mem U hex_class) s' k _
                (proj2 Hk) Hall) as Hall'.
  rewrite forallb_forall in *. intros c Hc.
  rewrite <- (hex_class_mem U). apply Hall'. exact Hc.
Qed.

(** Every literal found has three to eight hexadecimal digits. *)
Lemma findall_hex_shape (s : text) :
  forall prev skip h,
    In h (findall_from U re_hex_color prev s skip) ->
    3 <= List.length h <= 8 /\ forallb hex_digit_char h = true.
Proof.
  induction s as [|c s IH]; intros prev skip h Hin.
  - simpl in Hin. destruct skip; [|destruct Hin].
    destruct (match_at U re_hex_color prev []) eqn:E; [|destruct Hin].
    apply match_hex_shape in E. destruct E as [s' [E _]]. discriminate.
  - cbn [findall_from] in Hin. destruct skip as [|k]; [|eapply IH; exact Hin].
    destruct (match_at U re_hex_color prev (c :: s)) as [m|] eqn:E;
      [|eapply IH; exact Hin].
    destruct Hin as [<- | Hin]; [|eapply IH; exact Hin].
    apply match_hex_shape in E.
    destruct E as [s' [_ [Hlen [Hhex _]]]]. split; assumption.
Qed.

End LiteralFacts.

(** ** Statements *)

(** X6. The findings that block are those of the structure, bracket, colour
    and output-format checks, all of them and in this order; the findings
    of the radius and font checks are the warnings, all of them. *)
Theorem errors_and_warnings_by_check (U : Unicode) (code : text)
    (tokens : DesignTokens) :
  hard_errors_of (validate_component U code tokens) =
    of_rule ANGULAR_STRUCTURE (validate_component U code tokens)
    ++ _check_bracket_balance U code
    ++ _check_color_compliance U code tokens
    ++ of_rule OUTPUT_FORMAT (validate_component U code tokens) /\
  warnings_of (validate_component U code tokens) =
    _check_border_radius_compliance U code tokens
    ++ _check_font_compliance U code tokens.
Proof. apply findings_by_severity. Qed.

(** X7. The bracket check has no finding exactly when the text is properly
    nested outside its string literals. *)
Theorem bracket_check_is_exact (U : Unicode) (code : text) :
  _check_bracket_balance U code = [] <-> Balanced (outside_literals code).
Proof. apply bracket_check_nil_iff. Qed.

(** X9. No check hides the findings of another: the findings of a rule among
    those of the validator are the findings of the check of that rule, in
    their order. *)
Theorem checks_do_not_interfere (U : Unicode) (code : text)
    (tokens : DesignTokens) :
  of_rule SYNTAX (validate_component U code tokens)
    = _check_bracket_balance U code /\
  of_rule DESIGN_TOKEN_COLOR (validate_component U code tokens)
    = _check_color_compliance U code tokens /\
  of_rule DESIGN_TOKEN_RADIUS (validate_component U code tokens)
    = _check_border_radius_compliance U code tokens /\
  of_rule DESIGN_TOKEN_FONT (validate_component U code tokens)
    = _check_font_compliance U code tokens /\
  List.length (of_rule ANGULAR_STRUCTURE (validate_component U code tokens))
    <= 4 /\
  List.length (of_rule OUTPUT_FORMAT (validate_component U code tokens))
    <= 1.
Proof.
  rewrite !validate_of_rule.
  split; [reflexivity|]. split; [reflexivity|].
  split; [reflexivity|]. split; [reflexivity|].
  assert (Hw : forall b e, List.length (when b e) <= 1)
    by (intros [|] e; simpl; lia).
  split; [|apply Hw].
  rewrite !length_app.
  assert (Hsum : forall a b c d, a <= 1 -> b <= 1 -> c <= 1 -> d <= 1 ->
                                 a + (b + (c + d)) <= 4) by (intros; lia).
  apply Hsum; apply Hw.
Qed.

(** X10. The text of a reply, which [generate_component] strips, gets the
    output-format finding exactly when it starts with a fence or has one
    among its first fifty characters. *)
Theorem fence_check_on_replies (U : Unicode) (t : text)
    (tokens : DesignTokens) :
  of_rule OUTPUT_FORMAT (validate_component U (strip t) tokens) =
  if startswith fence (strip t) || contains fence (firstn 50 (strip t))
  then [output_format_finding] else [].
Proof. apply output_format_check_on_replies. Qed.

(** X11. Every colour literal that the check reads has three to eight
    hexadecimal digits. *)
Theorem color_literals_are_hex (U : Unicode) (code h : text) :
  In h (re_findall U re_hex_color code) ->
  3 <= List.length h <= 8 /\ forallb hex_digit_char h = true.
Proof. apply findall_hex_shape. Qed.

Lemma flat_map_singletons (A B : Type) (f : A -> list B) (g : A -> B)
    (l : list A) :
  (forall x, In x l -> f x = [g x]) -> flat_map f l = map g l.
Proof.
  induction l as [|a l IH]; intros H; simpl; [reflexivity|].
  rewrite (H a (or_introl eq_refl)), IH; [reflexivity|].
  intros x Hx. apply H. right. exact Hx.
Qed.

Lemma full_color_length (h : text) :
  3 <= List.length h <= 8 -> 5 <= List.length (full_color h) <= 9.
Proof.
  intros Hl. unfold full_color.
  destruct (Nat.eqb (List.length h) 3) eqn:E.
  - apply Nat.eqb_eq in E.
    destruct h as [|a [|b [|c [|d h]]]]; simpl in E; try discriminate.
    simpl. lia.
  - apply Nat.eqb_neq in E. simpl. lia.
Qed.

Lemma full_color_ascii (h : text) :
  forallb hex_digit_char h = true -> forallb is_ascii (full_color h) = true.
Proof.
  intros Hh. pose proof (hex_is_ascii ascii_tables h Hh) as Ha.
  unfold full_color. destruct (Nat.eqb _ 3); simpl; [|exact Ha].
  clear Hh. induction h as [|c h IH]; simpl in *; [reflexivity|].
  apply andb_true_iff in Ha. destruct Ha as [Hc Ha].
  rewrite Hc, (IH Ha). reflexivity.
Qed.

(** X12. A token colour in the three-digit form allows nothing: the literal is
    compared in its six-digit form and the token as it is written.  When
    every colour of the token set is an ASCII text of four characters,
    every colour literal of the text is flagged. *)
Theorem short_token_allows_nothing (U : Unicode) (code : text)
    (tokens : DesignTokens) :
  (forall name val, In (name, val) (colors tokens) ->
                    List.length val = 4 /\ forallb is_ascii val = true) ->
  _check_color_compliance U code tokens =
  map (fun h => color_finding U (full_color h) (values (colors tokens)))
      (re_findall U re_hex_color code).
Proof.
  intros Hshort. unfold _check_color_compliance.
  apply flat_map_singletons. intros h Hh. cbv beta zeta.
  destruct (mem_text _ _) eqn:E; [|reflexivity].
  exfalso. apply mem_lower_values in E.
  destruct E as [name [val [Hin El]]].
  destruct (Hshort name val Hin) as [Hlen Hascii].
  destruct (findall_hex_shape U code None 0 h Hh) as [Hl Hhex].
  rewrite (lower_ascii U val Hascii) in El.
  rewrite (lower_ascii U _ (full_color_ascii h Hhex)) in El.
  apply (f_equal (@List.length _)) in El. rewrite !length_map in El.
  pose proof (full_color_length h Hl). lia.
Qed.

(** X13. What success means: the text of a result with [success = true] has
    the four marks of a component and is properly nested outside its
    string literals; every hexadecimal colour literal that the colour
    pattern finds in it (a hash sign and three to eight hexadecimal
    digits up to a word boundary) is, in its six-digit form and case
    aside, a colour of the token set; and it has no fence at its start
    or among its first fifty characters.  Colours written otherwise, by
    name or as a function, are not read by the check. *)
Theorem success_means_clean (U : Unicode) (json_dumps : DesignTokens -> text)
    (client : Groq) (tokens : DesignTokens) (budget : nat)
    (user_prompt : text) (history : option (list Message))
    (r : PipelineResult) (log : Log) :
  run_pipeline_with U json_dumps client tokens budget user_prompt history []
    = (Returned r, log) ->
  r_success r = true ->
  contains (txt "@Component") (r_code r) = true /\
  contains (txt "selector:") (r_code r) = true /\
  (contains (txt "template:") (r_code r) = true \/
   contains (txt "templateUrl:") (r_code r) = true) /\
  re_search U re_export_class (r_code r) = true /\
  Balanced (outside_literals (r_code r)) /\
  (forall h, In h (re_findall U re_hex_color (r_code r)) ->
     exists name val, In (name, val) (colors tokens) /\
                      lower U val = lower U (full_color h)) /\
  startswith fence (r_code r) = false /\
  contains fence (firstn 50 (r_code r)) = false /\
  r_hard_errors r = [].
Proof.
  intros Hrun Hs.
  rewrite (run_pipeline_with_loop U json_dumps client tokens budget
             user_prompt history [] eq_refl eq_refl) in Hrun.
  destruct (attempt_loop _ _ _ _ _ _ _ _ _ _) as [[vars'|] log'] eqn:Hloop;
    [|discriminate].
  inversion Hrun; subst r log'. clear Hrun.
  rewrite Nat.add_1_r in Hloop.
  destruct (@attempt_loop_returned _ _ _ _ _ _ _ _ _ _ _ _ Hloop)
    as [calls [c [t [_ [_ [Hc [He _]]]]]]].
  unfold result_of in *. cbn [r_code r_success r_hard_errors] in *.
  apply success_flag in Hs. unfold hard_errors_of in Hs. rewrite Hs.
  rewrite He, <- Hc in Hs.
  destruct (findings_by_severity U (v_code vars') tokens) as [Hsplit _].
  unfold hard_errors_of in Hsplit. rewrite Hs in Hsplit. symmetry in Hsplit.
  apply app_eq_nil in Hsplit. destruct Hsplit as [Hstruct Hsplit].
  apply app_eq_nil in Hsplit. destruct Hsplit as [Hbr Hsplit].
  apply app_eq_nil in Hsplit. destruct Hsplit as [Hcol Hfmt].
  rewrite validate_of_rule in Hstruct, Hfmt.
  apply app_eq_nil in Hstruct. destruct Hstruct as [H1 Hstruct].
  apply app_eq_nil in Hstruct. destruct Hstruct as [H2 Hstruct].
  apply app_eq_nil in Hstruct. destruct Hstruct as [H3 H4].
  assert (Hwhen : forall b e, when b e = [] -> b = false)
    by (intros [|] e Hw; [discriminate | reflexivity]).
  apply Hwhen in H1, H2, H3, H4, Hfmt.
  apply negb_false_iff in H1, H2, H4.
  apply orb_false_iff in Hfmt. destruct Hfmt as [Hf1 Hf2].
  rewrite Hc in Hf1. rewrite strip_idem in Hf1. rewrite <- Hc in Hf1.
  repeat split; auto.
  - apply andb_false_iff in H3. rewrite !negb_false_iff in H3. exact H3.
  - apply bracket_check_nil_iff with (U := U). exact Hbr.
  - apply color_check_passes. exact Hcol.
Qed.

(** X19. The bracket check reads a text only through the characters outside
    its string literals and their positions: two texts that agree there
    get the same findings. *)
Theorem bracket_check_ignores_literals (U : Unicode) (code1 code2 : text) :
  outside_indexed code1 = outside_indexed code2 ->
  _check_bracket_balance U code1 = _check_bracket_balance U code2.
Proof.
  intros H. rewrite !check_bracket_balance_refines, H. reflexivity.
Qed.

(** X20. An empty font name in the token set switches the font check off:
    the empty text is part of every declaration. *)
Theorem empty_font_name_allows_everything (U : Unicode) (code : text)
    (tokens : DesignTokens) :
  font_family_sans tokens = [] \/ font_family_mono tokens = [] ->
  _check_font_compliance U code tokens = [].
Proof.
  intros H. apply font_check_passes. intros m _.
  exists []. split.
  - unfold allowed_fonts. destruct H as [-> | ->]; simpl; auto.
  - destruct (lower U m); reflexivity.
Qed.

(* ------------------------------------------------------------------ *)
(** * Properties of the server *)

(** ** The dictionary *)

Lemma text_eqb_refl (k : text) : text_eqb k k = true.
Proof. apply text_eqb_eq. reflexivity. Qed.

Lemma text_eqb_neq (a b : text) : a <> b -> text_eqb a b = false.
Proof.
  intros H. destruct (text_eqb a b) eqn:E; [|reflexivity].
  apply text_eqb_eq in E. contradiction.
Qed.

Lemma dict_get_set_same (V : Type) (d : dict V) (k : text) (v : V) :
  dict_get (dict_set d k v) k = Some v.
Proof.
  induction d as [|[k' v'] d IH]; simpl.
  - rewrite text_eqb_refl. reflexivity.
  - destruct (text_eqb k' k) eqn:E; simpl; rewrite E; [reflexivity | exact IH].
Qed.

Lemma dict_get_set_other (V : Type) (d : dict V) (k k0 : text) (v : V) :
  k0 <> k -> dict_get (dict_set d k v) k0 = dict_get d k0.
Proof.
  intros Hne. induction d as [|[k' v'] d IH]; simpl.
  - rewrite text_eqb_neq by congruence. reflexivity.
  - destruct (text_eqb k' k) eqn:E; simpl.
    + apply text_eqb_eq in E. subst k'.
      rewrite (text_eqb_neq (a := k) (b := k0)) by congruence. reflexivity.
    + destruct (text_eqb k' k0); [reflexivity | exact IH].
Qed.

Lemma dict_get_pop_same (V : Type) (d : dict V) (k : text) :
  dict_get (dict_pop d k) k = None.
Proof.
  unfold dict_pop. induction d as [|[k' v'] d IH]; simpl; [reflexivity|].
  destruct (text_eqb k' k) eqn:E; simpl; [exact IH|].
  rewrite E. exact IH.
Qed.

Lemma dict_get_pop_other (V : Type) (d : dict V) (k k0 : text) :
  k0 <> k -> dict_get (dict_pop d k) k0 = dict_get d k0.
Proof.
  intros Hne. unfold dict_pop.
  induction d as [|[k' v'] d IH]; simpl; [reflexivity|].
  destruct (text_eqb k' k) eqn:E; simpl.
  - apply text_eqb_eq in E. subst k'.
    rewrite (text_eqb_neq (a := k) (b := k0)) by congruence. exact IH.
  - destruct (text_eqb k' k0); [reflexivity | exact IH].
Qed.

(** Setting and popping keep one item per key. *)
Lemma dict_set_keys (V : Type) (d : dict V) (k : text) (v : V) :
  NoDup (map fst d) -> NoDup (map fst (dict_set d k v)).
Proof.
  assert (Hin : forall d k0, In k0 (map fst (dict_set d k v)) ->
                             k0 = k \/ In k0 (map fst d)).
  { clear d. induction d as [|[k' v'] d IH]; simpl; intros k0 H.
    - destruct H as [<- | []]. auto.
    - destruct (text_eqb k' k); simpl in H.
      + destruct H as [<- | H]; auto.
      + destruct H as [<- | H]; auto. destruct (IH k0 H); auto. }
  induction d as [|[k' v'] d IH]; simpl; intros Hd.
  - constructor; [intros [] | constructor].
  - inversion Hd as [|? ? Hk' Hd']; subst.
    destruct (text_eqb k' k) eqn:E; simpl.
    + constructor; assumption.
    + constructor; [|apply IH; exact Hd'].
      intros H. destruct (Hin d k' H) as [-> | H'].
      * rewrite text_eqb_refl in E. discriminate.
      * contradiction.
Qed.

Lemma dict_pop_keys (V : Type) (d : dict V) (k : text) :
  NoDup (map fst d) -> NoDup (map fst (dict_pop d k)).
Proof.
  unfold dict_pop. induction d as [|[k' v'] d IH]; simpl; intros Hd;
    [constructor|].
  inversion Hd as [|? ? Hk' Hd']; subst.
  destruct (negb (text_eqb k' k)); simpl; [|apply IH; exact Hd'].
  constructor; [|apply IH; exact Hd'].
  intros H. apply Hk'. apply in_map_iff in H.
  destruct H as [[k0 v0] [E H]]. apply filter_In in H. simpl in E. subst.
  apply in_map_iff. exists (k', v0). split; [reflexivity | apply H].
Qed.

(** ** Histories *)

Lemma last_n_length (A : Type) (n : nat) (l : list A) :
  List.length (last_n n l) = Nat.min (List.length l) n.
Proof. unfold last_n. rewrite length_skipn. lia. Qed.

Lemma last_n_suffix (A : Type) (n : nat) (l tail : list A) :
  List.length tail <= n ->
  exists kept, last_n n (l ++ tail) = kept ++ tail.
Proof.
  intros Hle. unfold last_n. rewrite length_app.
  exists (skipn (List.length l + List.length tail - n) l).
  rewrite skipn_app.
  replace (List.length l + List.length tail - n - List.length l) with 0 by lia.
  reflexivity.
Qed.

Lemma list_pair_ind (A : Type) (P : list A -> Prop) :
  P [] -> (forall x, P [x]) -> (forall x y l, P l -> P (x :: y :: l)) ->
  forall l, P l.
Proof.
  intros H0 H1 H2 l.
  assert (H : P l /\ forall x, P (x :: l)); [|apply H].
  induction l as [|y l [IH IH']]; split; auto.
Qed.

Lemma alternating_app (h h' : list Message) :
  alternating h -> alternating h' -> alternating (h ++ h').
Proof.
  intros Hh Hh'. revert Hh.
  induction h as [|x|u a h IH] using list_pair_ind; simpl; intros Hh.
  - exact Hh'.
  - contradiction.
  - destruct Hh as [Hu [Ha [Hc Hr]]]. auto.
Qed.

Lemma alternating_even (h : list Message) :
  alternating h -> Nat.even (List.length h) = true.
Proof.
  induction h as [|x|u a h IH] using list_pair_ind; simpl; intros Hh.
  - reflexivity.
  - contradiction.
  - apply IH, Hh.
Qed.

Lemma alternating_skip_two (h : list Message) :
  alternating h -> alternating (skipn 2 h).
Proof.
  destruct h as [|u [|a h0]]; simpl; auto. intros H. apply H.
Qed.

(** Cutting a history of at most 22 turns to its last 20 keeps the
    alternation. *)
Lemma alternating_last_20 (h : list Message) :
  alternating h -> List.length h <= 22 -> alternating (last_n 20 h).
Proof.
  intros Hh Hlen. unfold last_n.
  pose proof (alternating_even h Hh) as He.
  destruct (Nat.le_gt_cases (List.length h) 20) as [Hle | Hgt].
  - replace (List.length h - 20) with 0 by lia. exact Hh.
  - assert (E : List.length h = 22).
    { assert (List.length h = 21 \/ List.length h = 22) as [E | E] by lia;
        [|exact E].
      rewrite E in He. discriminate. }
    rewrite E. apply alternating_skip_two. exact Hh.
Qed.


(** ** The routes *)

Section ServerFacts.

Variable U : Unicode.
Variable json_dumps : DesignTokens -> text.
Variable connect : text -> Groq.
Variable tokens : DesignTokens.

Let generate := generate U json_dumps connect tokens.

(** [generate] in terms of the run it makes. *)
Lemma generate_run (c0 : char) (key : text) (sessions : Sessions)
    (req : GenerateRequest) (log : Log) :
  generate (c0 :: key) sessions req log =
  match run_pipeline U json_dumps (connect (c0 :: key)) tokens (prompt req)
          (Some (history_of sessions (session_id req))) log with
  | (Returned result, log') =>
      (Answered (response_of req result),
       dict_set sessions (session_id req)
         (last_n 20 (history_of sessions (session_id req)
                     ++ new_turns req result)),
       log')
  | (Raised, log') => (Unhandled, sessions, log')
  end.
Proof. reflexivity. Qed.

Lemma last_n_new_turns (old : list Message) (x y : Message) :
  last_n 20 (old ++ [x; y]) = last_n 18 old ++ [x; y].
Proof.
  unfold last_n. rewrite length_app, skipn_app. simpl List.length.
  replace (List.length old + 2 - 20) with (List.length old - 18) by lia.
  replace (List.length old - 18 - List.length old) with 0 by lia.
  reflexivity.
Qed.

Lemma generate_answered (key : text) (sessions : Sessions)
    (req : GenerateRequest) (log : Log) (a : GenerateResponse)
    (sessions' : Sessions) (log' : Log) :
  generate key sessions req log = (Answered a, sessions', log') ->
  dict_get sessions' (session_id req) =
    Some (last_n 18 (history_of sessions (session_id req))
          ++ [user (prompt req); assistant (firstn 500 (g_code a))]) /\
  (forall sid, sid <> session_id req ->
               dict_get sessions' sid = dict_get sessions sid) /\
  g_session_id a = session_id req.
Proof.
  intros H. destruct key as [|c0 key]; [discriminate|].
  rewrite generate_run in H.
  destruct (run_pipeline _ _ _ _ _ _ _) as [[r|] l]; [|discriminate].
  inversion H; subst. unfold new_turns. rewrite last_n_new_turns.
  split; [apply dict_get_set_same|].
  split; [|reflexivity].
  intros sid Hne. apply dict_get_set_other. exact Hne.
Qed.

Lemma generate_not_answered (key : text) (sessions : Sessions)
    (req : GenerateRequest) (log : Log) (ans : Answer GenerateResponse)
    (sessions' : Sessions) (log' : Log) :
  generate key sessions req log = (ans, sessions', log') ->
  (forall a, ans <> Answered a) -> sessions' = sessions.
Proof.
  intros H Hno. destruct key as [|c0 key]; [inversion H; reflexivity|].
  rewrite generate_run in H.
  destruct (run_pipeline _ _ _ _ _ _ _) as [[r|] l]; inversion H; subst;
    [|reflexivity].
  exfalso. eapply Hno. reflexivity.
Qed.

Lemma history_of_ok (sessions : Sessions) (sid : text) :
  store_ok sessions ->
  List.length (history_of sessions sid) <= 20 /\
  alternating (history_of sessions sid).
Proof.
  intros [_ H]. unfold history_of.
  destruct (dict_get sessions sid) as [h|] eqn:E.
  - destruct (H sid h E) as [Hl Ha]. split; [lia | exact Ha].
  - split; [simpl; lia | exact I].
Qed.

Lemma serve_keeps_store_ok (op : Operation) (state : Sessions * Log) :
  store_ok (fst state) ->
  store_ok (fst (serve U json_dumps connect tokens op state)).
Proof.
  destruct state as [sessions log]. intros Hok. cbn [fst] in Hok.
  destruct op as [key req | sid].
  - cbn [serve fst snd].
    fold generate.
    destruct (generate key sessions req log) as [[ans sessions'] log'] eqn:E.
    cbn [fst]. destruct key as [|c0 key]; [inversion E; subst; exact Hok|].
    rewrite generate_run in E.
    destruct (run_pipeline _ _ _ _ _ _ _) as [[r|] l]; inversion E; subst;
      [|exact Hok].
    destruct (history_of_ok (session_id req) Hok) as [Hlen Halt].
    split; [apply dict_set_keys; apply Hok|].
    intros sid h Hget.
    destruct (list_eq_dec N.eq_dec sid (session_id req)) as [-> | Hne].
    + rewrite dict_get_set_same in Hget. inversion Hget; subst h.
      split.
      * rewrite last_n_length, length_app. unfold new_turns.
        cbn [List.length]. lia.
      * apply alternating_last_20.
        -- apply alternating_app; [exact Halt|].
           unfold new_turns.
           cbn [alternating role content user assistant].
           repeat split. apply firstn_le_length.
        -- rewrite length_app. unfold new_turns. cbn [List.length]. lia.
    + rewrite dict_get_set_other in Hget by exact Hne.
      apply Hok in Hget. exact Hget.
  - cbn [serve clear_session fst snd]. split.
    + apply dict_pop_keys. apply Hok.
    + intros sid0 h Hget.
      destruct (list_eq_dec N.eq_dec sid0 sid) as [-> | Hne].
      * rewrite dict_get_pop_same in Hget. discriminate.
      * rewrite dict_get_pop_other in Hget by exact Hne.
        apply Hok in Hget. exact Hget.
Qed.

Lemma serve_all_ok (ops : list Operation) :
  store_ok (fst (serve_all U json_dumps connect tokens ops)).
Proof.
  unfold serve_all.
  assert (H : forall state, store_ok (fst state) ->
            store_ok (fst (fold_left
                             (fun st op => serve U json_dumps connect tokens op st)
                             ops state))).
  { induction ops as [|op ops IH]; intros state Hok; simpl; [exact Hok|].
    apply IH. apply serve_keeps_store_ok. exact Hok. }
  apply H. split; [constructor|]. intros sid h Hget. discriminate.
Qed.

End ServerFacts.

Lemma dict_pop_absent (V : Type) (d : dict V) (k : text) :
  dict_get d k = None -> dict_pop d k = d.
Proof.
  unfold dict_pop. induction d as [|[k' v'] d IH]; simpl; [reflexivity|].
  destruct (text_eqb k' k); [discriminate|]. simpl.
  intros H. rewrite (IH H). reflexivity.
Qed.

(** ** Statements *)

(** X14. A request that is answered leaves in its session the last 18 turns
    that were there, then the prompt and the first 500 characters of the
    text; hence 20 turns at most.  The other sessions are as they were. *)
Theorem generate_stores_the_exchange
    (U : Unicode) (json_dumps : DesignTokens -> text) (connect : text -> Groq)
    (tokens : DesignTokens) (key : text) (sessions : Sessions)
    (req : GenerateRequest) (log : Log) (a : GenerateResponse)
    (sessions' : Sessions) (log' : Log) :
  generate U json_dumps connect tokens key sessions req log
    = (Answered a, sessions', log') ->
  dict_get sessions' (session_id req) =
    Some (last_n 18 (history_of sessions (session_id req))
          ++ [user (prompt req); assistant (firstn 500 (g_code a))]) /\
  List.length (history_of sessions' (session_id req)) =
    Nat.min (List.length (history_of sessions (session_id req)) + 2) 20 /\
  (forall sid, sid <> session_id req ->
               dict_get sessions' sid = dict_get sessions sid) /\
  g_session_id a = session_id req.
Proof.
  intros H. apply generate_answered in H. destruct H as [Hget [Hother Hsid]].
  split; [exact Hget|]. split; [|split; assumption].
  unfold history_of at 1. rewrite Hget, length_app, last_n_length.
  cbn [List.length]. lia.
Qed.

(** X15. A request that is not answered changes nothing in the store.  When
    the key is not set the answer is the HTTP error 500 and no call is
    made.  When a call made for the request fails, that call is the last
    one, the request is not answered and the store is unchanged. *)
Theorem failed_request_keeps_store
    (U : Unicode) (json_dumps : DesignTokens -> text) (connect : text -> Groq)
    (tokens : DesignTokens) (key : text) (sessions : Sessions)
    (req : GenerateRequest) (log : Log) (ans : Answer GenerateResponse)
    (sessions' : Sessions) (log' : Log) :
  generate U json_dumps connect tokens key sessions req log
    = (ans, sessions', log') ->
  ((forall a, ans <> Answered a) -> sessions' = sessions) /\
  (key = [] ->
   ans = HTTPException 500 (txt "GROQ_API_KEY not configured on server") /\
   log' = log) /\
  (forall k c, nth_error log' k = Some c -> List.length log <= k ->
               call_reply c = None ->
               ans = Unhandled /\ sessions' = sessions /\
               List.length log' = S k).
Proof.
  intros H. split; [|split].
  - apply (generate_not_answered _ _ _ _ _ _ _ _ H).
  - intros ->. inversion H. auto.
  - intros k c Hk Hle Hc. destruct key as [|c0 key].
    + inversion H; subst.
      assert (k < List.length log') by (apply nth_error_Some; congruence).
      lia.
    + rewrite generate_run in H. unfold run_pipeline in H.
      destruct (run_pipeline_with _ _ _ _ _ _ _ _) as [o l] eqn:Hrun.
      apply run_pipeline_with_calls in Hrun.
      destruct Hrun as [calls [-> [_ [_ [Hfail _]]]]].
      assert (l' : log' = log ++ calls) by (destruct o; inversion H; reflexivity).
      subst log'. rewrite nth_error_app2 in Hk by exact Hle.
      destruct (Hfail _ _ Hk Hc) as [-> Hlen].
      inversion H; subst. rewrite length_app. repeat split. lia.
Qed.

(** X16. Whatever requests a server has handled since it started, every
    session of its store has between 2 and 20 turns, user and assistant
    turns in alternation with a user turn first, and the text of an
    assistant turn has 500 characters at most. *)
Theorem stored_histories_are_bounded
    (U : Unicode) (json_dumps : DesignTokens -> text) (connect : text -> Groq)
    (tokens : DesignTokens) (ops : list Operation) (sid : text)
    (h : list Message) :
  dict_get (fst (serve_all U json_dumps connect tokens ops)) sid = Some h ->
  2 <= List.length h <= 20 /\ alternating h.
Proof.
  intros H.
  exact (proj2 (serve_all_ok U json_dumps connect tokens ops) sid h H).
Qed.

(** X17. The conversation is remembered: after an answered request, the next
    request of the same session runs the pipeline on the stored turns,
    so that the first call of its run carries a prompt that recalls
    them. *)
Theorem next_request_recalls_the_exchange
    (U : Unicode) (json_dumps : DesignTokens -> text) (connect : text -> Groq)
    (tokens : DesignTokens) (key : text) (sessions : Sessions)
    (req1 req2 : GenerateRequest) (log : Log) (a : GenerateResponse)
    (sessions1 : Sessions) (log1 : Log) :
  generate U json_dumps connect tokens key sessions req1 log
    = (Answered a, sessions1, log1) ->
  session_id req2 = session_id req1 ->
  exists c,
    nth_error (snd (generate U json_dumps connect tokens key sessions1 req2
                      log1)) (List.length log1) = Some c /\
    req_messages (call_request c) =
      [system (build_system_prompt (json_dumps tokens));
       user (full_prompt_of (prompt req2)
               (Some (last_n 18 (history_of sessions (session_id req1))
                      ++ [user (prompt req1);
                          assistant (firstn 500 (g_code a))])))].
Proof.
  intros H Hsid. pose proof H as Hkey.
  apply generate_answered in H. destruct H as [Hget _].
  destruct key as [|c0 key]; [discriminate|].
  rewrite generate_run. unfold history_of at 1 2. rewrite Hsid, Hget.
  unfold run_pipeline.
  rewrite (run_pipeline_with_loop U json_dumps (connect (c0 :: key)) tokens
             MAX_RETRIES (prompt req2) _ log1 eq_refl eq_refl).
  destruct (attempt_loop _ _ _ _ _ _ _ _ _ _) as [o l] eqn:Hloop.
  pose proof Hloop as Hcalls. apply attempt_loop_calls in Hcalls.
  destruct Hcalls as [calls [-> Hlen]].
  destruct (@attempt_loop_requests _ _ _ _ _ _ _ _ _ log1 _ calls Hloop
              ltac:(unfold MAX_RETRIES; lia)) as [Hfirst _].
  destruct calls as [|c calls]; [simpl in Hlen; lia|].
  exists c. split.
  - destruct o; cbn [snd]; rewrite nth_error_app2 by lia;
      rewrite Nat.sub_diag; reflexivity.
  - rewrite (Hfirst c eq_refl). reflexivity.
Qed.

(** X18. Clearing a session removes it and nothing else, answers with its
    identifier, leaves a store without that session as it is, and makes
    the next request of the session start from the bare prompt. *)
Theorem clear_session_forgets (sessions : Sessions) (sid : text) :
  fst (clear_session sessions sid) = sid /\
  dict_get (snd (clear_session sessions sid)) sid = None /\
  (forall sid', sid' <> sid ->
     dict_get (snd (clear_session sessions sid)) sid' = dict_get sessions sid') /\
  (dict_get sessions sid = None -> snd (clear_session sessions sid) = sessions) /\
  (forall user_prompt,
     full_prompt_of user_prompt
       (Some (history_of (snd (clear_session sessions sid)) sid))
     = user_prompt).
Proof.
  unfold clear_session. cbn [fst snd].
  split; [reflexivity|]. split; [apply dict_get_pop_same|].
  split; [intros sid' Hne; apply dict_get_pop_other; exact Hne|].
  split; [apply dict_pop_absent|].
  intros p. unfold history_of. rewrite dict_get_pop_same. reflexivity.
Qed.

(* ------------------------------------------------------------------ *)
(** * Further examples *)

Lemma run_call_count_witness :
  exists r, fst passing_run = Returned r /\
            1 <= List.length (snd passing_run) <= 3.
Proof.
  destruct (@run_call_count ascii_tables sample_json
              (constant_client good_component) sample_tokens MAX_RETRIES
              (txt "a card") None (fst passing_run) (snd passing_run)
              (surjective_pairing passing_run)) as [Hle Hge].
  destruct (fst passing_run) as [r|] eqn:E.
  - exists r. split; [reflexivity|]. split; [apply (Hge r eq_refl)|exact Hle].
  - vm_compute in E. discriminate.
Defined.

Lemma failed_call_witness :
  fst broken_run = Raised /\ List.length (snd broken_run) = 2.
Proof.
  destruct (nth_error (snd broken_run) 1) as [c|] eqn:Hc.
  - apply (proj1 (@failed_call_ends_the_run ascii_tables sample_json
                    failing_client sample_tokens MAX_RETRIES
                    (txt "a card") None (fst broken_run) (snd broken_run)
                    (surjective_pairing broken_run)) 1 c Hc).
    vm_compute in Hc. inversion Hc. reflexivity.
  - vm_compute in Hc. discriminate.
Defined.

Lemma requests_witness :
  option_map (fun c => List.length (req_messages (call_request c)))
    (nth_error (snd failing_run) 1) = Some 4.
Proof.
  destruct (nth_error (snd failing_run) 1) as [c|] eqn:Hc.
  - simpl. f_equal.
    apply (@requests_of_a_run ascii_tables sample_json (constant_client [])
             sample_tokens MAX_RETRIES (txt "a card") None 1 c Hc).
  - vm_compute in Hc. discriminate.
Defined.

Lemma stripped_witness :
  exists r, fst passing_run = Returned r /\ strip (r_code r) = r_code r.
Proof.
  destruct passing_run as [[r|] log] eqn:E.
  - exists r. split; [reflexivity|].
    apply (@returned_code_is_stripped ascii_tables sample_json
             (constant_client good_component) sample_tokens MAX_RETRIES
             (txt "a card") None r log E).
  - vm_compute in E. discriminate.
Defined.

Lemma prompt_window_witness :
  startswith (txt "Previous conversation context:")
    (full_prompt_of (txt "a card") (Some [user (txt "a button")])) = true.
Proof.
  apply (proj2 (proj2 (prompt_reads_a_window (txt "a card")
                         [user (txt "a button")]))).
  discriminate.
Defined.

Lemma color_literal_witness :
  3 <= List.length (txt "fff") <= 8 /\
  forallb hex_digit_char (txt "fff") = true.
Proof.
  apply (@color_literals_are_hex ascii_tables (txt "color: #fff;") (txt "fff")).
  vm_compute. left. reflexivity.
Defined.

Lemma short_token_witness :
  _check_color_compliance ascii_tables (txt "color: #fff;") short_tokens =
  [color_finding ascii_tables (txt "#ffffff") [txt "#fff"]].
Proof.
  apply (@short_token_allows_nothing ascii_tables (txt "color: #fff;")
           short_tokens).
  intros name val Hin. vm_compute in Hin. destruct Hin as [E | []].
  inversion E. split; reflexivity.
Defined.

Lemma success_witness :
  exists r, fst passing_run = Returned r /\
            Balanced (outside_literals (r_code r)) /\
            contains fence (firstn 50 (r_code r)) = false.
Proof.
  destruct passing_run as [[r|] log] eqn:E.
  - exists r. split; [reflexivity|].
    destruct (@success_means_clean ascii_tables sample_json
                (constant_client good_component) sample_tokens MAX_RETRIES
                (txt "a card") None r log E)
      as [_ [_ [_ [_ [Hb [_ [_ [Hf _]]]]]]]].
    + vm_compute in E. inversion E. reflexivity.
    + split; assumption.
  - vm_compute in E. discriminate.
Defined.

Lemma first_exchange_witness :
  List.length (history_of (snd (fst first_exchange)) default_session) = 2.
Proof.
  destruct first_exchange as [[[a | status detail |] sessions'] log'] eqn:E;
    try (vm_compute in E; discriminate).
  cbn [fst snd].
  apply (proj1 (proj2 (@generate_stores_the_exchange ascii_tables sample_json
                         sample_connect sample_tokens (txt "key") []
                         sample_request [] a sessions' log' E))).
Defined.

Lemma failed_request_witness :
  snd (fst (generate ascii_tables sample_json sample_connect sample_tokens []
              [(default_session, [user (txt "a"); assistant (txt "b")])]
              sample_request []))
  = [(default_session, [user (txt "a"); assistant (txt "b")])].
Proof.
  destruct (generate ascii_tables sample_json sample_connect sample_tokens []
              [(default_session, [user (txt "a"); assistant (txt "b")])]
              sample_request [])
    as [[ans sessions'] log'] eqn:E.
  cbn [fst snd].
  apply (proj1 (@failed_request_keeps_store ascii_tables sample_json
                  sample_connect sample_tokens [] _ sample_request []
                  ans sessions' log' E)).
  intros a Ha. subst ans. vm_compute in E. discriminate.
Defined.

Lemma stored_histories_witness :
  match dict_get
          (fst (serve_all ascii_tables sample_json sample_connect sample_tokens
                  [Generate (txt "key") sample_request;
                   Generate (txt "key") sample_request]))
          default_session with
  | Some h => 2 <= List.length h <= 20 /\ alternating h
  | None => False
  end.
Proof.
  destruct (dict_get _ default_session) as [h|] eqn:E.
  - apply (@stored_histories_are_bounded ascii_tables sample_json
             sample_connect sample_tokens _ default_session h E).
  - vm_compute in E. discriminate.
Defined.

Lemma next_request_witness :
  exists c,
    nth_error
      (snd (generate ascii_tables sample_json sample_connect sample_tokens
              (txt "key") (snd (fst first_exchange)) sample_request
              (snd first_exchange)))
      (List.length (snd first_exchange)) = Some c /\
    List.length (req_messages (call_request c)) = 2.
Proof.
  destruct first_exchange as [[[a | status detail |] sessions'] log'] eqn:E;
    try (vm_compute in E; discriminate).
  cbn [fst snd].
  destruct (@next_request_recalls_the_exchange ascii_tables sample_json
              sample_connect sample_tokens (txt "key") [] sample_request
              sample_request [] a sessions' log' E eq_refl)
    as [c [Hn Hm]].
  exists c. split; [exact Hn | rewrite Hm; reflexivity].
Defined.

Lemma clear_session_witness :
  snd (clear_session [] default_session) = [].
Proof.
  apply (proj1 (proj2 (proj2 (proj2 (clear_session_forgets [] default_session))))).
  reflexivity.
Defined.

Lemma ignores_literals_witness :
  _check_bracket_balance ascii_tables (txt "f('(')") =
  _check_bracket_balance ascii_tables (txt "f(']')").
Proof.
  apply (@bracket_check_ignores_literals ascii_tables (txt "f('(')")
           (txt "f(']')")).
  reflexivity.
Defined.

Lemma empty_font_name_witness :
  _check_font_compliance ascii_tables (txt "font-family: Comic Sans;")
    {| colors := []; borders := [];
       font_family_sans := []; font_family_mono := txt "Fira Code" |} = [].
Proof.
  apply (@empty_font_name_allows_everything ascii_tables
           (txt "font-family: Comic Sans;")).
  left. reflexivity.
Defined.
